(** * Grimoire: the local search index and its query engine

    A shallow embedding of [scripts/build-index.js] and
    [scripts/search-index.js]: registry loading and merging, the cached
    index and its freshness test, the scoring function and the search
    orchestrator, together with the properties the specification states
    about them.

    Conventions of the embedding.
    - A JavaScript string is a [string]: a sequence of code units, here the
      units U+0000..U+00FF that [ascii] holds.  [toLowerCase] and the
      white-space class of [/\s/] are the JavaScript ones on that range.
    - A JavaScript number that holds an integer is a [Z]; a division is
      carried out in [Q].
    - [null] and [undefined] are [None].
    - A function that may throw returns an [Exc]; [try_catch] is the
      [try { } catch { }] block.
    - Functions that touch the file system or the clock run in the monad
      [M] over a [World]. *)

From Stdlib Require Import ZArith QArith String Ascii.
From stdpp Require Import base tactics option list gmap strings sorting lexico.

Open Scope Z_scope.

(** ** JavaScript strings *)

Module Js.

(** [String.prototype.startsWith] *)
Fixpoint startsWith (s t : string) {struct t} : bool :=
  match t with
  | EmptyString => true
  | String c t' =>
      match s with
      | EmptyString => false
      | String d s' => Ascii.eqb d c && startsWith s' t'
      end
  end.

(** [String.prototype.endsWith] *)
Definition endsWith (s t : string) : bool :=
  startsWith (String.rev s) (String.rev t).

(** [String.prototype.includes] *)
Fixpoint includes (s t : string) : bool :=
  startsWith s t ||
  match s with
  | EmptyString => false
  | String _ s' => includes s' t
  end.

(** The lower-case mapping of one code unit: A-Z, and the Latin-1 capitals
    U+00C0..U+00DE except the multiplication sign U+00D7. *)
Definition lower_unit (c : ascii) : ascii :=
  let n := N_of_ascii c in
  if ((65 <=? n) && (n <=? 90) || (192 <=? n) && (n <=? 214)
      || (216 <=? n) && (n <=? 222))%N
  then ascii_of_N (n + 32) else c.

(** [String.prototype.toLowerCase] *)
Fixpoint toLowerCase (s : string) : string :=
  match s with
  | EmptyString => EmptyString
  | String c s' => String (lower_unit c) (toLowerCase s')
  end.

(** The class [\s] of a regular expression: TAB, LF, VT, FF, CR, SPACE and
    NO-BREAK SPACE. *)
Definition is_space (c : ascii) : bool :=
  let n := N_of_ascii c in
  ((9 <=? n) && (n <=? 13) || (n =? 32) || (n =? 160))%N.

(** [s.split(/\s+/)]: the pieces between the maximal runs of white space.
    [in_sep] tells that the previous unit was white space and [piece] is
    the piece read so far. *)
Fixpoint split_go (in_sep : bool) (piece : string) (s : string) : list string :=
  match s with
  | EmptyString => [piece]
  | String c s' =>
      if is_space c then
        if in_sep then split_go true piece s'
        else piece :: split_go true EmptyString s'
      else split_go false (piece +:+ String c EmptyString) s'
  end.

Definition split_ws (s : string) : list string := split_go false EmptyString s.

(** [s.replace(pat, by)] for a string pattern: the first occurrence only. *)
Fixpoint replace (s pat by_ : string) : string :=
  if startsWith s pat
  then by_ +:+ String.substring (String.length pat)
                 (String.length s - String.length pat) s
  else match s with
       | EmptyString => EmptyString
       | String c s' => String c (replace s' pat by_)
       end.

(** [Boolean(s)] for a string: the empty string is falsy. *)
Definition truthy (s : string) : bool :=
  match s with EmptyString => false | _ => true end.

(** [Array.prototype.includes] on an array of strings. *)
Definition array_includes (l : list string) (t : string) : bool :=
  existsb (String.eqb t) l.

(** [Array.prototype.some] *)
Definition some {A} (p : A → bool) (l : list A) : bool := existsb p l.

(** [Array.prototype.slice(0, e)] *)
Definition slice0 {A} (l : list A) (e : Z) : list A :=
  let len := Z.of_nat (length l) in
  let final := if e <? 0 then Z.max (len + e) 0 else Z.min e len in
  take (Z.to_nat final) l.

(** [Array.prototype.sort(cmp)].  The sort is stable, and for a consistent
    comparator its result is the one stable arrangement in which no element
    is followed by one that compares lower: the one insertion builds. *)
Fixpoint insert_sorted {A} (cmp : A → A → Z) (x : A) (l : list A) : list A :=
  match l with
  | [] => [x]
  | y :: l' => if cmp x y <=? 0 then x :: y :: l' else y :: insert_sorted cmp x l'
  end.

Fixpoint sort {A} (cmp : A → A → Z) (l : list A) : list A :=
  match l with
  | [] => []
  | x :: l' => insert_sorted cmp x (sort cmp l')
  end.

End Js.

(** ** Exceptions *)

Inductive Error :=
  | TypeError      (* a property read on null *)
  | SyntaxError    (* JSON.parse *)
  | IOError.       (* fs *)

Inductive Exc (A : Type) :=
  | Ok (a : A)
  | Throw (e : Error).
Arguments Ok {A} a.
Arguments Throw {A} e.

#[global] Instance Exc_ret : MRet Exc := fun A a => Ok a.

#[global] Instance Exc_bind : MBind Exc := fun A B f x =>
  match x with Ok a => f a | Throw e => Throw e end.

Definition try_catch {A} (body : Exc A) (handler : Error → Exc A) : Exc A :=
  match body with Ok a => Ok a | Throw e => handler e end.

(** ** Data model *)

Module Skill.
(** One record of a registry's [skills] array.  [registry] is absent in the
    registry file and attached by the loader. *)
Record t := mk {
  name : string;
  description : option string;
  source : option string;
  tags : option (list string);
  version : option string;
  verified : option bool;
  registry : option string
}.

(** [{ ...skill, registry: name }] *)
Definition stamp (reg : string) (s : t) : t :=
  {| name := name s; description := description s; source := source s;
     tags := tags s; version := version s; verified := verified s;
     registry := Some reg |}.
End Skill.

Module RegistryInfo.
Record t := mk { source : string; fetched_at : Z }.
End RegistryInfo.

Module Index.
(** The index object.  [updated_at] is the time value of
    [new Date(index.updated_at)]: [None] is an invalid date. *)
Record t := mk {
  version : string;
  updated_at : option Z;
  registries : gmap string RegistryInfo.t;
  skills : list Skill.t
}.
End Index.

(** ** [search-index.js]: scoring *)

Definition scoreSkill (skill : Skill.t) (terms : list string) : Z :=
  let lowerTerms := map Js.toLowerCase terms in
  let name := Js.toLowerCase (Skill.name skill) in
  let desc := Js.toLowerCase (default EmptyString (Skill.description skill)) in
  let tags := map Js.toLowerCase (default [] (Skill.tags skill)) in
  fold_left (fun score term =>
    let score :=
      if String.eqb name term then score + 100
      else if Js.startsWith name term then score + 60
      else if Js.includes name term then score + 40
      else score in
    let score :=
      if Js.array_includes tags term then score + 30
      else if Js.some (fun t => Js.startsWith t term) tags then score + 20
      else score in
    let score :=
      if Js.includes desc term then score + 10 else score in
    score) lowerTerms 0.

(** [query.toLowerCase().split(/\s+/).filter(Boolean)] *)
Definition tokenize (query : string) : list string :=
  List.filter Js.truthy (Js.split_ws (Js.toLowerCase query)).

(** A scored record, [{ ...skill, score }]. *)
Module Scored.
Record t := mk { skill : Skill.t; score : Z }.
End Scored.

(** [searchSkills(index, query, options)]; [limit] is [options.limit]. *)
Definition searchSkills (index : option Index.t) (query : string)
    (limit : option Z) : Exc (list Scored.t) :=
  let limit := default 10 limit in
  let terms := tokenize query in
  if Nat.eqb (length terms) 0 then Ok []
  else
    match index with
    | None => Throw TypeError
    | Some index =>
        let scored :=
          map (fun skill => Scored.mk skill (scoreSkill skill terms))
              (Index.skills index) in
        let scored := List.filter (fun s => 0 <? Scored.score s) scored in
        let scored :=
          Js.sort (fun a b => Scored.score b - Scored.score a) scored in
        Ok (Js.slice0 scored limit)
    end.

(** ** [build-index.js]: constants *)

Definition INDEX_VERSION : string := "1.0.0".
Definition TTL_HOURS : Z := 24.

(** ** [build-index.js]: the network fetch *)

Module Http.
(** What one [https.get] yields: an ['error'] on the request, or a response
    with its status code, its [Location] header and its body ([None] when
    the response stream emits ['error']). *)
Inductive Response :=
  | NetworkError
  | Reply (statusCode : Z) (location : string) (body : option string).
End Http.

(** How the promise of [fetchUrl] settles. *)
Inductive Settled :=
  | Resolved (data : string)
  | Rejected.

(** The inner function [get] of [fetchUrl]: every response with status 301
    or 302 leads to a further request, to the location it names.  [fuel]
    is the number of requests awaited; [None] says that the promise has not
    settled by then. *)
Fixpoint get (net : string → Http.Response) (fuel : nat) (url : string) : option Settled :=
  match fuel with
  | O => None
  | S fuel' =>
      match net url with
      | Http.NetworkError => Some Rejected
      | Http.Reply statusCode location body =>
          if (statusCode =? 301) || (statusCode =? 302) then get net fuel' location
          else if negb (statusCode =? 200) then Some Rejected
          else match body with
               | Some data => Some (Resolved data)
               | None => Some Rejected
               end
      end
  end.

Definition fetchUrl (net : string → Http.Response) (fuel : nat) (url : string) : option Settled :=
  get net fuel url.

(** ** [build-index.js]: loading the registries *)

Module Registry.
(** The parsed content of a registry: [skills] is [None] when the object has
    no [skills] array. *)
Record t := mk { skills : option (list Skill.t) }.
End Registry.

Module Loaded.
(** [{ registries, skills }], the object [loadLocalRegistries] returns and
    the build then extends. *)
Record t := mk {
  registries : gmap string RegistryInfo.t;
  skills : list Skill.t
}.
End Loaded.

Module Remote.
(** [{ registry, skills }], what [fetchRemoteRegistry] returns when it does
    not return [null]. *)
Record t := mk {
  registry : RegistryInfo.t;
  skills : list Skill.t
}.
End Remote.

(** [path.join(dir, file)] for a plain file name. *)
Definition path_join (dir file : string) : string := dir +:+ "/" +:+ file.

(** [loadLocalRegistries()].  [dir] is the listing of [REGISTRIES_DIR],
    [None] when the directory does not exist; each entry comes with what
    [JSON.parse(fs.readFileSync(filePath, 'utf8'))] gives for it.  A file
    that throws is reported on the console and skipped. *)
Definition loadLocalRegistries (REGISTRIES_DIR : string)
    (dir : option (list (string * Exc Registry.t))) (now : Z) : Loaded.t :=
  match dir with
  | None => Loaded.mk ∅ []
  | Some entries =>
      let files :=
        List.filter
          (fun f => Js.endsWith (fst f) ".json" && negb (String.eqb (fst f) "schema.json"))
          entries in
      fold_left (fun local f =>
        let file := fst f in
        let name := Js.replace file ".json" EmptyString in
        let filePath := path_join REGISTRIES_DIR file in
        match snd f with
        | Throw _ => local
        | Ok content =>
            let registries :=
              <[name := RegistryInfo.mk ("local:" +:+ filePath) now]>
                (Loaded.registries local) in
            let skills :=
              match Registry.skills content with
              | Some skills =>
                  fold_left (fun acc skill => acc ++ [Skill.stamp name skill])
                            skills (Loaded.skills local)
              | None => Loaded.skills local
              end in
            Loaded.mk registries skills
        end) files (Loaded.mk ∅ [])
  end.

(** [fetchRemoteRegistry(url, name)]: [Some None] is the [null] of a failed
    fetch, the outer [None] a fetch that has not settled. *)
Definition fetchRemoteRegistry (net : string → Http.Response)
    (JSON_parse : string → Exc Registry.t) (now : Z) (fuel : nat)
    (url name : string) : option (option Remote.t) :=
  match fetchUrl net fuel url with
  | None => None
  | Some Rejected => Some None
  | Some (Resolved content) =>
      match JSON_parse content with
      | Throw _ => Some None
      | Ok data =>
          Some (Some (Remote.mk (RegistryInfo.mk url now)
                        (map (Skill.stamp name) (default [] (Registry.skills data)))))
      end
  end.

(** [remoteUrls], as the source has it: no entry. *)
Definition remoteUrls : list (string * string) := [].

(** What the loop of [buildIndex] awaits: the result of
    [fetchRemoteRegistry(url, name)] for each entry [[name, url]] of
    [remoteUrls], in order; [None] when one of them does not settle. *)
Definition fetchRemotes (net : string → Http.Response)
    (JSON_parse : string → Exc Registry.t) (now : Z) (fuel : nat)
    (urls : list (string * string)) : option (list (string * option Remote.t)) :=
  mapM (fun entry =>
          remote ← fetchRemoteRegistry net JSON_parse now fuel (snd entry) (fst entry);
          Some (fst entry, remote))
       urls.

(** ** [build-index.js]: merging *)

(** One turn of the loop over [remoteUrls], for [remote], the result of
    [await fetchRemoteRegistry(url, name)]. *)
Definition mergeRemote (local : Loaded.t) (name : string) (remote : option Remote.t) : Loaded.t :=
  match remote with
  | None => local
  | Some remote =>
      let registries := <[name := Remote.registry remote]> (Loaded.registries local) in
      let existingNames : gset string :=
        list_to_set (map Skill.name (Loaded.skills local)) in
      let skills :=
        fold_left (fun skills skill =>
                     if decide (Skill.name skill ∈ existingNames) then skills
                     else skills ++ [skill])
                  (Remote.skills remote) (Loaded.skills local) in
      Loaded.mk registries skills
  end.

(** The whole loop, over the fetched registries in the order of
    [Object.entries(remoteUrls)]. *)
Definition mergeRemotes (local : Loaded.t) (remotes : list (string * option Remote.t)) : Loaded.t :=
  fold_left (fun local r => mergeRemote local (fst r) (snd r)) remotes local.

(** The index object the build makes of the merged registries. *)
Definition makeIndex (localeCompare : string → string → Z) (local : Loaded.t)
    (remotes : list (string * option Remote.t)) (now : Z) : Index.t :=
  let local := mergeRemotes local remotes in
  let skills :=
    Js.sort (fun a b => localeCompare (Skill.name a) (Skill.name b))
            (Loaded.skills local) in
  Index.mk INDEX_VERSION (Some now) (Loaded.registries local) skills.

(** ** [build-index.js]: the cache file *)

Module Cache.
(** What [INDEX_PATH] holds, as far as its readers tell: no file, a file
    that cannot be read, text that is no JSON, the JSON [null] (or another
    falsy value), or an index object. *)
Inductive t :=
  | Missing
  | Unreadable
  | Malformed
  | Null
  | Object (index : Index.t).
End Cache.

Inductive Json :=
  | JsonNull
  | JsonObject (index : Index.t).

(** [fs.existsSync(INDEX_PATH)] *)
Definition existsSync (f : Cache.t) : bool :=
  match f with Cache.Missing => false | _ => true end.

(** [JSON.parse(fs.readFileSync(INDEX_PATH, 'utf8'))] *)
Definition readJson (f : Cache.t) : Exc Json :=
  match f with
  | Cache.Missing | Cache.Unreadable => Throw IOError
  | Cache.Malformed => Throw SyntaxError
  | Cache.Null => Ok JsonNull
  | Cache.Object index => Ok (JsonObject index)
  end.

(** [new Date(index.updated_at)] *)
Definition updatedAt_of (j : Json) : Exc (option Z) :=
  match j with
  | JsonNull => Throw TypeError
  | JsonObject index => Ok (Index.updated_at index)
  end.

(** [(now - updatedAt) / (1000 * 60 * 60)] *)
Definition hoursSinceUpdate (now updatedAt : Z) : Q :=
  (inject_Z (now - updatedAt) / inject_Z (1000 * 60 * 60))%Q.

(** [isIndexFresh()], reading the cache [f] at the time [now].  An invalid
    date makes the difference [NaN], which is not below 24. *)
Definition isIndexFresh_at (f : Cache.t) (now : Z) : Exc bool :=
  if negb (existsSync f) then Ok false
  else
    try_catch
      (index ← readJson f;
       updatedAt ← updatedAt_of index;
       match updatedAt with
       | None => Ok false
       | Some updatedAt =>
           Ok (if Qlt_le_dec (hoursSinceUpdate now updatedAt) (inject_Z TTL_HOURS)
               then true else false)
       end)
      (fun _ => Ok false).

(** [loadExistingIndex()], reading the cache [f]. *)
Definition loadExistingIndex_at (f : Cache.t) : Exc (option Index.t) :=
  if negb (existsSync f) then Ok None
  else
    try_catch
      (index ← readJson f;
       match index with
       | JsonNull => Ok None
       | JsonObject index => Ok (Some index)
       end)
      (fun _ => Ok None).

(** ** The world of one invocation *)

Module Event.
(** What happens outside between two steps of the program: [elapsed]
    milliseconds pass, and another process may replace the cache file. *)
Record t := mk { elapsed : N; replaced : option Cache.t }.
End Event.

Module World.
(** [clock] is the time in milliseconds; [index_file] is the cache at
    [INDEX_PATH]; [index_dir_writable] tells whether [mkdirSync] and
    [writeFileSync] succeed; [registries_dir] is the listing of
    [REGISTRIES_DIR]; [agenda] holds the events to come, one before each
    step; [written] records the indexes saved so far, latest first. *)
Record t := mk {
  clock : Z;
  index_file : Cache.t;
  index_dir_writable : bool;
  registries_dir : option (list (string * Exc Registry.t));
  agenda : list Event.t;
  written : list Index.t
}.
End World.

(** The next event of the agenda takes place. *)
Definition env_step (w : World.t) : World.t :=
  match World.agenda w with
  | [] => w
  | e :: agenda =>
      World.mk (World.clock w + Z.of_N (Event.elapsed e))
               (default (World.index_file w) (Event.replaced e))
               (World.index_dir_writable w)
               (World.registries_dir w)
               agenda
               (World.written w)
  end.

(** Computations on the world that may throw. *)
Definition M (A : Type) : Type := World.t → World.t * Exc A.

#[global] Instance M_ret : MRet M := fun A a w => (w, Ok a).

#[global] Instance M_bind : MBind M := fun A B k m w =>
  match m w with
  | (w', Ok a) => k a w'
  | (w', Throw e) => (w', Throw e)
  end.

Definition lift {A} (x : Exc A) : M A := fun w => (w, x).

(** [Date.now()] and [new Date()] *)
Definition Date_now : M Z := fun w => (w, Ok (World.clock w)).

(** [isIndexFresh()] *)
Definition isIndexFresh : M bool :=
  fun w =>
    let w := env_step w in
    (w, isIndexFresh_at (World.index_file w) (World.clock w)).

(** [loadExistingIndex()] *)
Definition loadExistingIndex : M (option Index.t) :=
  fun w =>
    let w := env_step w in
    (w, loadExistingIndex_at (World.index_file w)).

(** [fs.mkdirSync(INDEX_DIR, { recursive: true })] when needed, then
    [fs.writeFileSync(INDEX_PATH, JSON.stringify(index, null, 2))] *)
Definition writeIndex (index : Index.t) : M unit :=
  fun w =>
    if World.index_dir_writable w then
      (World.mk (World.clock w) (Cache.Object index) true
                (World.registries_dir w) (World.agenda w)
                (index :: World.written w),
       Ok tt)
    else (w, Throw IOError).

Module Options.
(** The options of [search]; [rebuild] and [online] default to [false]. *)
Record t := mk { rebuild : bool; online : bool; limit : option Z }.
End Options.

Module SearchResult.
Record t := mk { results : list Scored.t; elapsed : Z; fromCache : bool }.
End SearchResult.

Section Program.

(** [String.prototype.localeCompare] of the host, [REGISTRIES_DIR], and
    the results of [await fetchRemoteRegistry(url, name)] for the entries
    of [remoteUrls], in their order. *)
Variable localeCompare : string → string → Z.
Variable REGISTRIES_DIR : string.
Variable remotes : list (string * option Remote.t).

(** The reading of the local registries, one step of the program. *)
Definition readLocalRegistries : M Loaded.t :=
  fun w =>
    let w := env_step w in
    (w, Ok (loadLocalRegistries REGISTRIES_DIR (World.registries_dir w) (World.clock w))).

(** [buildIndex({ force, quiet })]; the log is not part of the model. *)
Definition buildIndex (force : bool) : M (option Index.t) :=
  fresh ← (if negb force then isIndexFresh else mret false) ;
  if (fresh : bool) then loadExistingIndex
  else
    local ← readLocalRegistries ;
    now ← Date_now ;
    let index := makeIndex localeCompare local remotes now in
    _ ← writeIndex index ;
    mret (Some index).

(** [search(query, options)] *)
Definition search (query : string) (options : Options.t) : M SearchResult.t :=
  let rebuild := Options.rebuild options in
  let online := Options.online options in
  startTime ← Date_now ;
  stale ← (if rebuild || online then mret true
           else (fresh ← isIndexFresh ; mret (negb fresh) : M bool)) ;
  index ← (if (stale : bool) then buildIndex (rebuild || online)
           else (index ← loadExistingIndex ;
                 match index : option Index.t with
                 | None => buildIndex false
                 | Some _ => mret index
                 end)) ;
  results ← lift (searchSkills index query (Options.limit options)) ;
  now ← Date_now ;
  fromCache ← (if negb rebuild && negb online then isIndexFresh else mret false) ;
  mret (SearchResult.mk results (now - startTime) fromCache).

End Program.

(** ** [search-index.js]: the command line *)

Module Number.
(** A JavaScript number that is [NaN] or holds an integer. *)
Inductive t :=
  | NaN
  | Int (z : Z).

(** [ToIntegerOrInfinity], as [slice] reads its arguments: [NaN] is 0. *)
Definition toInteger (n : t) : Z :=
  match n with NaN => 0 | Int z => z end.
End Number.

Module Cli.

(** [Array.prototype.indexOf] on an array of strings: -1 when absent. *)
Fixpoint indexOf (l : list string) (x : string) : Z :=
  match l with
  | [] => -1
  | y :: l' =>
      if String.eqb y x then 0
      else let i := indexOf l' x in if i =? -1 then -1 else i + 1
  end.

(** [Array.prototype.join] *)
Fixpoint join (sep : string) (l : list string) : string :=
  match l with
  | [] => EmptyString
  | [x] => x
  | x :: l' => x +:+ sep +:+ join sep l'
  end.

(** The value of a decimal digit. *)
Definition digit (c : ascii) : option Z :=
  let n := N_of_ascii c in
  if ((48 <=? n) && (n <=? 57))%N then Some (Z.of_N n - 48) else None.

(** The digits at the front of a string, read in base 10 after [acc];
    [seen] tells whether a digit was read. *)
Fixpoint digits (acc : Z) (seen : bool) (s : string) : Number.t :=
  match s with
  | EmptyString => if seen then Number.Int acc else Number.NaN
  | String c s' =>
      match digit c with
      | Some d => digits (10 * acc + d) true s'
      | None => if seen then Number.Int acc else Number.NaN
      end
  end.

Fixpoint trimStart (s : string) : string :=
  match s with
  | EmptyString => EmptyString
  | String c s' => if Js.is_space c then trimStart s' else s
  end.

Definition negate (n : Number.t) : Number.t :=
  match n with Number.NaN => Number.NaN | Number.Int z => Number.Int (- z) end.

(** [parseInt(x, 10)]; [None] is [undefined], which reads as the string
    "undefined".  White space at the front is skipped, a sign is read, then
    the digits up to the first other unit; the result is the integer they
    denote (the rounding of integers beyond 2^53 is left out). *)
Definition parseInt (x : option string) : Number.t :=
  match x with
  | None => Number.NaN
  | Some s =>
      match trimStart s with
      | String "-" s' => negate (digits 0 false s')
      | String "+" s' => digits 0 false s'
      | s' => digits 0 false s'
      end
  end.

(** What [main] reads off its arguments. *)
Definition flag (args : list string) (name : string) : bool :=
  Js.array_includes args name.

Definition limitIdx (args : list string) : Z := indexOf args "--limit".

Definition limit (args : list string) : Number.t :=
  if negb (limitIdx args =? -1)
  then parseInt (args !! Z.to_nat (limitIdx args + 1))
  else Number.Int 10.

Definition query (args : list string) : string :=
  join " "
    (List.filter
       (fun a => (limitIdx args =? -1) || negb (indexOf args a =? limitIdx args + 1))
       (List.filter (fun a => negb (Js.startsWith a "-")) args)).

(** How [main] ends: the exit code, and the result of the search that was
    printed, if any.  What is printed is not part of the model. *)
Inductive Exit :=
  | Exited (code : Z) (shown : option SearchResult.t).

Section Main.
Variable localeCompare : string → string → Z.
Variable REGISTRIES_DIR : string.
Variable remotes : list (string * option Remote.t).

(** [main()], with [process.argv.slice(2)] as [args]; an exception of
    [search] ends in [process.exit(1)]. *)
Definition main (args : list string) (w : World.t) : World.t * Exit :=
  if flag args "--help" || flag args "-h" then (w, Exited 0 None)
  else
    let rebuild := flag args "--rebuild" in
    let online := flag args "--online" in
    let limit := limit args in
    let query := query args in
    if negb (Js.truthy query) then (w, Exited 1 None)
    else
      match search localeCompare REGISTRIES_DIR remotes query
              (Options.mk rebuild online (Some (Number.toInteger limit))) w with
      | (w', Ok result) => (w', Exited 0 (Some result))
      | (w', Throw _) => (w', Exited 1 None)
      end.

End Main.

End Cli.

(** ** [generate-catalog.js] *)

Module Catalog.

(** [parseSource(source)] *)
Definition parseSource (source : string) : string :=
  if Js.startsWith source "github:"
  then "https://github.com/" +:+ Js.replace source "github:" EmptyString
  else source.

(** [loadRegistries()].  [dir] is the listing of [REGISTRIES_DIR] as for
    [loadLocalRegistries]; here nothing is caught: a directory that cannot
    be listed and a file that cannot be read or parsed end the run. *)
Definition loadRegistries (localeCompare : string → string → Z)
    (dir : option (list (string * Exc Registry.t))) : Exc (list Skill.t) :=
  match dir with
  | None => Throw IOError
  | Some entries =>
      let files := List.filter (fun f => Js.endsWith (fst f) ".json") entries in
      match
        fold_left (fun acc f =>
          match acc with
          | Throw e => Throw e
          | Ok skills =>
              match snd f with
              | Throw e => Throw e
              | Ok registry =>
                  match Registry.skills registry with
                  | Some more => Ok (skills ++ more)
                  | None => Ok skills
                  end
              end
          end) files (Ok [])
      with
      | Throw e => Throw e
      | Ok skills =>
          Ok (Js.sort (fun a b => localeCompare (Skill.name a) (Skill.name b)) skills)
      end
  end.

End Catalog.

(** ** A collation for the host

    [localeCompare] is the host's; the program is stated over any.  For
    examples, [localeCompare_root] orders strings as the root collation
    orders names made of unaccented letters, digits and a punctuation mark:
    first by letters regardless of case, digits before letters and
    punctuation before digits, then lower case before upper case. *)

Definition is_letter (c : ascii) : bool :=
  let n := N_of_ascii c in
  ((65 <=? n) && (n <=? 90) || (97 <=? n) && (n <=? 122))%N.

Definition is_digit (c : ascii) : bool :=
  let n := N_of_ascii c in ((48 <=? n) && (n <=? 57))%N.

Definition primary (c : ascii) : N :=
  if is_letter c then (2000 + N_of_ascii (Js.lower_unit c))%N
  else if is_digit c then (1000 + N_of_ascii c)%N
  else (1 + N_of_ascii c)%N.

Definition tertiary (c : ascii) : N :=
  if (N_of_ascii (Js.lower_unit c) =? N_of_ascii c)%N then 0%N else 1%N.

Definition collation_key (s : string) : list N :=
  let units := list_ascii_of_string s in
  map primary units ++ 0%N :: map tertiary units.

Definition localeCompare_root (a b : string) : Z :=
  if decide (lexico (collation_key a) (collation_key b)) then -1
  else if decide (collation_key a = collation_key b) then 0 else 1.

(** ** Properties of the string primitives *)

Section StringFacts.

(** [t] is a prefix of [s]; [t] occurs in [s]. *)
Definition IsPrefix (t s : string) : Prop := ∃ r, s = t +:+ r.
Definition IsSubstring (t s : string) : Prop := ∃ l r, s = l +:+ t +:+ r.

Lemma startsWith_spec s t : Js.startsWith s t = true ↔ IsPrefix t s.
Proof.
  revert s. induction t as [|c t IH]; intros s; simpl.
  - split; [intros _; by exists s | reflexivity].
  - destruct s as [|d s]; simpl.
    + split; [discriminate | intros [r Hr]; discriminate].
    + rewrite andb_true_iff, Ascii.eqb_eq, IH. split.
      * intros [-> [r ->]]. by exists r.
      * intros [r Hr]. injection Hr as -> ->. split; [done | by exists r].
Qed.

Lemma includes_spec s t : Js.includes s t = true ↔ IsSubstring t s.
Proof.
  split.
  - induction s as [|c s IH]; simpl; rewrite orb_true_iff.
    + intros [H | H]; [| done].
      apply startsWith_spec in H as [r ->]. by exists EmptyString, r.
    + intros [H | H].
      * apply startsWith_spec in H as [r Hr]. exists EmptyString, r. by rewrite Hr.
      * destruct (IH H) as (l & r & ->). by exists (String c l), r.
  - intros (l & r & ->). induction l as [|c l IH].
    + assert (Js.startsWith (t +:+ r) t = true) as H
        by (apply startsWith_spec; by exists r).
      simpl. destruct (t +:+ r); simpl; by rewrite H.
    + simpl. rewrite IH. apply orb_true_r.
Qed.

Lemma array_includes_spec l t : Js.array_includes l t = true ↔ t ∈ l.
Proof.
  unfold Js.array_includes. rewrite existsb_exists. split.
  - intros (x & Hin & Heq). apply String.eqb_eq in Heq as ->.
    by apply list_elem_of_In.
  - intros Hin. exists t. split; [by apply list_elem_of_In | apply String.eqb_refl].
Qed.

Lemma some_startsWith_spec l t :
  Js.some (fun g => Js.startsWith g t) l = true ↔ ∃ g, g ∈ l ∧ IsPrefix t g.
Proof.
  unfold Js.some. rewrite existsb_exists. split.
  - intros (g & Hin & H). exists g. split; [by apply list_elem_of_In |].
    by apply startsWith_spec.
  - intros (g & Hin & H). exists g. split; [by apply list_elem_of_In |].
    by apply startsWith_spec.
Qed.

(** Every code unit of [s] satisfies [P]. *)
Fixpoint all_units (P : ascii → Prop) (s : string) : Prop :=
  match s with
  | EmptyString => True
  | String c s' => P c ∧ all_units P s'
  end.

Lemma all_units_app P a b :
  all_units P (a +:+ b) ↔ all_units P a ∧ all_units P b.
Proof. induction a as [|c a IH]; simpl; [tauto | rewrite IH; tauto]. Qed.

Lemma lower_unit_idem c : Js.lower_unit (Js.lower_unit c) = Js.lower_unit c.
Proof. by destruct c as [[] [] [] [] [] [] [] []]. Qed.

Lemma is_space_lower_unit c : Js.is_space (Js.lower_unit c) = Js.is_space c.
Proof. by destruct c as [[] [] [] [] [] [] [] []]. Qed.

Lemma toLowerCase_units s :
  all_units (fun c => Js.lower_unit c = c) (Js.toLowerCase s).
Proof. induction s; simpl; [done | split; [apply lower_unit_idem | done]]. Qed.

Lemma toLowerCase_fixed s :
  all_units (fun c => Js.lower_unit c = c) s → Js.toLowerCase s = s.
Proof. induction s; simpl; [done | intros [-> H]; by rewrite IHs]. Qed.

Lemma toLowerCase_spaces s :
  all_units (fun c => Js.is_space c = true) s →
  all_units (fun c => Js.is_space c = true) (Js.toLowerCase s).
Proof.
  induction s; simpl; [done |]. intros [H1 H2].
  rewrite is_space_lower_unit. auto.
Qed.

(** The pieces of a split hold units of the split string only. *)
Lemma split_go_units P b piece s :
  all_units P piece → all_units P s → Forall (all_units P) (Js.split_go b piece s).
Proof.
  revert b piece. induction s as [|c s IH]; intros b piece Hp Hs; simpl.
  - by constructor.
  - destruct Hs as [Hc Hs]. destruct (Js.is_space c).
    + destruct b; [by apply IH |]. constructor; [done | by apply IH].
    + apply IH; [| done]. apply all_units_app. by repeat split.
Qed.

(** Splitting white space alone leaves empty pieces only. *)
Lemma split_go_spaces b s :
  all_units (fun c => Js.is_space c = true) s →
  List.filter Js.truthy (Js.split_go b EmptyString s) = [].
Proof.
  revert b. induction s as [|c s IH]; intros b; simpl; [done |].
  intros [-> Hs]. destruct b; simpl; by apply IH.
Qed.

Lemma tokenize_lower_case query :
  Forall (fun t => Js.toLowerCase t = t) (tokenize query).
Proof.
  unfold tokenize, Js.split_ws.
  assert (Forall (all_units (fun c => Js.lower_unit c = c))
            (Js.split_go false EmptyString (Js.toLowerCase query))) as H.
  { apply split_go_units; [done | apply toLowerCase_units]. }
  apply Forall_forall. intros t Ht.
  apply list_elem_of_In, filter_In in Ht as [Ht _].
  apply toLowerCase_fixed. rewrite Forall_forall in H.
  by apply H, list_elem_of_In.
Qed.

Lemma tokenize_nonempty query : Forall (fun t => t ≠ EmptyString) (tokenize query).
Proof.
  apply Forall_forall. intros t Ht.
  apply list_elem_of_In, filter_In in Ht as [_ Ht]. by destruct t.
Qed.

End StringFacts.

(** ** The score as the specification words it

    Per token, a record earns points in three categories.  The relations
    below follow the wording of the specification: within the name and the
    tag category only the first rule that applies counts. *)

Inductive spec_name_points (name t : string) : Z → Prop :=
  | name_exact : name = t → spec_name_points name t 100
  | name_prefix : name ≠ t → IsPrefix t name → spec_name_points name t 60
  | name_contains :
      name ≠ t → ¬ IsPrefix t name → IsSubstring t name →
      spec_name_points name t 40
  | name_none :
      name ≠ t → ¬ IsPrefix t name → ¬ IsSubstring t name →
      spec_name_points name t 0.

Inductive spec_tag_points (tags : list string) (t : string) : Z → Prop :=
  | tag_exact : t ∈ tags → spec_tag_points tags t 30
  | tag_prefix :
      t ∉ tags → (∃ g, g ∈ tags ∧ IsPrefix t g) → spec_tag_points tags t 20
  | tag_none :
      t ∉ tags → ¬ (∃ g, g ∈ tags ∧ IsPrefix t g) → spec_tag_points tags t 0.

Inductive spec_desc_points (desc t : string) : Z → Prop :=
  | desc_contains : IsSubstring t desc → spec_desc_points desc t 10
  | desc_none : ¬ IsSubstring t desc → spec_desc_points desc t 0.

(** The points of one token: name, tags and description are lower-cased and
    the three categories add up. *)
Definition spec_token_points (skill : Skill.t) (t : string) (p : Z) : Prop :=
  ∃ a b c,
    spec_name_points (Js.toLowerCase (Skill.name skill)) t a ∧
    spec_tag_points (map Js.toLowerCase (default [] (Skill.tags skill))) t b ∧
    spec_desc_points
      (Js.toLowerCase (default EmptyString (Skill.description skill))) t c ∧
    p = a + b + c.

(** The same with the tags compared as the record has them: the reading for
    records whose tags are in lower case, as the data model has them. *)
Definition spec_token_points_verbatim (skill : Skill.t) (t : string) (p : Z) : Prop :=
  ∃ a b c,
    spec_name_points (Js.toLowerCase (Skill.name skill)) t a ∧
    spec_tag_points (default [] (Skill.tags skill)) t b ∧
    spec_desc_points
      (Js.toLowerCase (default EmptyString (Skill.description skill))) t c ∧
    p = a + b + c.

Definition total (pts : list Z) : Z := foldr Z.add 0 pts.

Section ScoreFacts.

(** What one turn of the loop of [scoreSkill] adds. *)
Definition term_points (name : string) (tags : list string) (desc term : string) : Z :=
  (if String.eqb name term then 100
   else if Js.startsWith name term then 60
   else if Js.includes name term then 40 else 0)
  + (if Js.array_includes tags term then 30
     else if Js.some (fun t => Js.startsWith t term) tags then 20 else 0)
  + (if Js.includes desc term then 10 else 0).

Lemma scoreSkill_total skill terms :
  Forall (fun t => Js.toLowerCase t = t) terms →
  scoreSkill skill terms =
  total (map (term_points
                (Js.toLowerCase (Skill.name skill))
                (map Js.toLowerCase (default [] (Skill.tags skill)))
                (Js.toLowerCase (default EmptyString (Skill.description skill))))
             terms).
Proof.
  intros Hlow. unfold scoreSkill.
  replace (map Js.toLowerCase terms) with terms.
  2:{ induction Hlow as [|t l Ht _ IH]; simpl; [done | by rewrite Ht, <- IH]. }
  set (nm := Js.toLowerCase (Skill.name skill)).
  set (tg := map Js.toLowerCase (default [] (Skill.tags skill))).
  set (ds := Js.toLowerCase (default EmptyString (Skill.description skill))).
  rewrite <- (Z.add_0_l (total _)). generalize 0 as acc.
  clear Hlow. induction terms as [|t l IH]; intros acc; simpl.
  - lia.
  - rewrite IH. unfold term_points.
    destruct (String.eqb nm t), (Js.startsWith nm t), (Js.includes nm t),
      (Js.array_includes tg t), (Js.some (fun g => Js.startsWith g t) tg),
      (Js.includes ds t); lia.
Qed.

Lemma term_points_spec skill t :
  spec_token_points skill t
    (term_points
       (Js.toLowerCase (Skill.name skill))
       (map Js.toLowerCase (default [] (Skill.tags skill)))
       (Js.toLowerCase (default EmptyString (Skill.description skill))) t).
Proof.
  unfold spec_token_points, term_points.
  set (nm := Js.toLowerCase (Skill.name skill)).
  set (tg := map Js.toLowerCase (default [] (Skill.tags skill))).
  set (ds := Js.toLowerCase (default EmptyString (Skill.description skill))).
  eexists _, _, _. split; [| split; [| split; [| reflexivity]]].
  - destruct (String.eqb nm t) eqn:E1.
    { apply String.eqb_eq in E1. by constructor. }
    apply String.eqb_neq in E1.
    destruct (Js.startsWith nm t) eqn:E2.
    { apply startsWith_spec in E2. by constructor. }
    assert (¬ IsPrefix t nm) by (rewrite <- startsWith_spec; congruence).
    destruct (Js.includes nm t) eqn:E3.
    { apply includes_spec in E3. by constructor. }
    apply name_none; [done | done |]. rewrite <- includes_spec. congruence.
  - destruct (Js.array_includes tg t) eqn:E1.
    { apply array_includes_spec in E1. by constructor. }
    assert (t ∉ tg) by (rewrite <- array_includes_spec; congruence).
    destruct (Js.some (fun g => Js.startsWith g t) tg) eqn:E2.
    { apply some_startsWith_spec in E2. by constructor. }
    apply tag_none; [done |]. rewrite <- some_startsWith_spec. congruence.
  - destruct (Js.includes ds t) eqn:E1.
    { apply includes_spec in E1. by constructor. }
    apply desc_none. rewrite <- includes_spec. congruence.
Qed.

(** The three relations are functional: the wording leaves no choice. *)
Lemma spec_token_points_unique skill t p q :
  spec_token_points skill t p → spec_token_points skill t q → p = q.
Proof.
  intros (a & b & c & Ha & Hb & Hc & ->) (a' & b' & c' & Ha' & Hb' & Hc' & ->).
  assert (a = a') as -> by (destruct Ha; destruct Ha'; (done || tauto)).
  assert (b = b') as -> by (destruct Hb; destruct Hb'; (done || tauto)).
  assert (c = c') as -> by (destruct Hc; destruct Hc'; (done || tauto)).
  done.
Qed.

End ScoreFacts.

Example score_exact_docker :
  scoreSkill (Skill.mk "docker" (Some "Containers") None (Some ["ops"]) None None None)
             (tokenize "docker") = 100.
Proof. reflexivity. Qed.

Example score_all_categories :
  scoreSkill (Skill.mk "Docker" (Some "docker things") None (Some ["DOCKER"]) None None None)
             (tokenize " Docker  ") = 140.
Proof. reflexivity. Qed.

(** C1. For every skill record and every query, the score on the query's
    tokens is the sum over the tokens of the points of the three categories:
    100, 60 or 40 for a name that equals, starts with or contains the token
    (the first that applies only), 30 or 20 for a tag that equals or starts
    with it, 10 for a description that contains it, name, tags and
    description taken in lower case; the points are determined by these
    rules.  For a record whose tags are in lower case the tags count as
    they are.  A record named "docker-compose" with no tag that starts with
    "docker" and no "docker" in its description scores 60 on the query
    "docker". *)
Theorem scoreSkill_composition :
  (∀ skill query,
     (∃ pts, Forall2 (spec_token_points skill) (tokenize query) pts ∧
             scoreSkill skill (tokenize query) = total pts) ∧
     (∀ pts, Forall2 (spec_token_points skill) (tokenize query) pts →
             scoreSkill skill (tokenize query) = total pts)) ∧
  (∀ skill query,
     Forall (fun g => Js.toLowerCase g = g) (default [] (Skill.tags skill)) →
     ∃ pts, Forall2 (spec_token_points_verbatim skill) (tokenize query) pts ∧
            scoreSkill skill (tokenize query) = total pts) ∧
  (∀ skill,
     Skill.name skill = "docker-compose"%string →
     (∀ g, g ∈ default [] (Skill.tags skill) →
           ¬ IsPrefix "docker" (Js.toLowerCase g)) →
     ¬ IsSubstring "docker"
         (Js.toLowerCase (default EmptyString (Skill.description skill))) →
     scoreSkill skill (tokenize "docker") = 60).
Proof.
  assert (∀ skill query,
            ∃ pts, Forall2 (spec_token_points skill) (tokenize query) pts ∧
                   scoreSkill skill (tokenize query) = total pts) as Hex.
  { intros skill query. eexists. split.
    2:{ apply scoreSkill_total, tokenize_lower_case. }
    induction (tokenize query) as [|t l IH]; simpl; constructor;
      [apply term_points_spec | done]. }
  split; [| split].
  - intros skill query. split; [apply Hex |]. intros pts Hpts.
    destruct (Hex skill query) as (pts' & Hpts' & ->). f_equal.
    revert pts' Hpts'. induction Hpts as [|t p l ps Hp _ IH]; intros pts' Hpts';
      inversion Hpts'; subst; [done |].
    f_equal; [eapply spec_token_points_unique; eauto | by apply IH].
  - intros skill query Hlow. destruct (Hex skill query) as (pts & Hpts & Hscore).
    exists pts. split; [| done].
    assert (map Js.toLowerCase (default [] (Skill.tags skill))
            = default [] (Skill.tags skill)) as Htags.
    { induction Hlow as [|g l Hg _ IH]; simpl; [done | by rewrite Hg, IH]. }
    eapply Forall2_impl; [exact Hpts |]. intros t p. unfold spec_token_points.
    by rewrite Htags.
  - intros skill Hname Htags Hdesc.
    destruct (Hex skill "docker"%string) as (pts & Hpts & ->).
    change (tokenize "docker") with ["docker"%string] in Hpts.
    inversion Hpts as [|t p l ps Hp Hnil]; subst. inversion Hnil; subst.
    destruct Hp as (a & b & c & Ha & Hb & Hc & ->). rewrite Hname in Ha.
    assert (a = 60) as ->.
    { assert (Js.startsWith (Js.toLowerCase "docker-compose") "docker" = true)
        as Hsw by reflexivity.
      apply startsWith_spec in Hsw.
      inversion Ha; subst; first [done | discriminate | tauto]. }
    assert (b = 0) as ->.
    { assert (¬ (∃ g, g ∈ map Js.toLowerCase (default [] (Skill.tags skill))
                      ∧ IsPrefix "docker" g)) as Hno.
      { intros (g & Hin & Hpre). apply list_elem_of_fmap in Hin as (g0 & -> & Hin).
        by apply (Htags g0). }
      inversion Hb as [Hin | Hn Hsome | ]; subst; [| tauto | done].
      exfalso. apply Hno. exists "docker"%string. split; [done |].
      by exists EmptyString. }
    assert (c = 0) as -> by (inversion Hc; subst; tauto).
    reflexivity.
Qed.

Lemma scoreSkill_composition_witness :
  scoreSkill
    (Skill.mk "docker-compose" (Some "Multi-container applications") None
              (Some ["compose"; "containers"]) None None None)
    (tokenize "docker") = 60.
Proof.
  apply (proj2 (proj2 scoreSkill_composition)); [reflexivity | |].
  - intros g Hg Hpre. apply startsWith_spec in Hpre.
    apply elem_of_cons in Hg as [-> | Hg]; [discriminate |].
    apply list_elem_of_singleton in Hg as ->. discriminate.
  - intros H. apply includes_spec in H. discriminate.
Defined.

(** ** Properties of [sort] *)

Section SortFacts.
Context {A : Type} (cmp : A → A → Z).

(** [a] may stand before [b]. *)
Definition before (a b : A) : Prop := cmp a b <= 0.

Lemma insert_sorted_perm x l : Js.insert_sorted cmp x l ≡ₚ x :: l.
Proof.
  induction l as [|y l IH]; simpl; [done |].
  destruct (cmp x y <=? 0); [done |]. rewrite IH. apply Permutation_swap.
Qed.

Lemma sort_perm l : Js.sort cmp l ≡ₚ l.
Proof.
  induction l as [|x l IH]; simpl; [done |].
  by rewrite insert_sorted_perm, IH.
Qed.

(** Stability: elements that the comparator does not separate keep their
    order.  [P] selects a class of elements each of which may stand before
    each other. *)
Lemma insert_sorted_filter (P : A → bool) x l :
  (∀ a b, P a = true → P b = true → before a b) →
  List.filter P (Js.insert_sorted cmp x l) = List.filter P (x :: l).
Proof.
  intros HP. induction l as [|y l IH]; simpl; [done |].
  destruct (cmp x y <=? 0) eqn:E; simpl; [done |].
  destruct (P y) eqn:Py.
  - destruct (P x) eqn:Px.
    + apply Z.leb_gt in E. specialize (HP x y Px Py). unfold before in HP. lia.
    + simpl in IH. rewrite Px in IH. by rewrite IH.
  - simpl in IH. by rewrite IH.
Qed.

Lemma sort_stable (P : A → bool) l :
  (∀ a b, P a = true → P b = true → before a b) →
  List.filter P (Js.sort cmp l) = List.filter P l.
Proof.
  intros HP. induction l as [|x l IH]; simpl; [done |].
  rewrite insert_sorted_filter by done. simpl. by rewrite IH.
Qed.

(** A consistent comparator: any two elements compare one way or the other,
    and the order is transitive. *)
Hypothesis cmp_total : ∀ a b, before a b ∨ before b a.
Hypothesis cmp_trans : ∀ a b c, before a b → before b c → before a c.

Lemma insert_sorted_sorted x l :
  StronglySorted before l → StronglySorted before (Js.insert_sorted cmp x l).
Proof.
  induction 1 as [|y l Hl IH Hy]; simpl.
  - repeat constructor.
  - destruct (cmp x y <=? 0) eqn:E.
    + apply Z.leb_le in E. constructor; [by constructor |].
      constructor; [done |]. eapply Forall_impl; [exact Hy |].
      intros z Hz. by apply (cmp_trans x y z).
    + apply Z.leb_gt in E. constructor; [done |].
      rewrite (insert_sorted_perm x l). constructor; [| done].
      destruct (cmp_total x y) as [H | H]; [unfold before in H; lia | done].
Qed.

Lemma sort_sorted l : StronglySorted before (Js.sort cmp l).
Proof.
  induction l as [|x l IH]; simpl; [constructor | by apply insert_sorted_sorted].
Qed.

End SortFacts.

(** ** [searchSkills] *)

Section SearchFacts.

(** The comparator of [searchSkills]: higher scores first. *)
Definition by_score (a b : Scored.t) : Z := Scored.score b - Scored.score a.

(** The records of an index with their scores, in index order. *)
Definition annotate (index : Index.t) (terms : list string) : list Scored.t :=
  map (fun skill => Scored.mk skill (scoreSkill skill terms)) (Index.skills index).

(** All the matches of a query, ranked: what [searchSkills] truncates. *)
Definition ranked (index : Index.t) (terms : list string) : list Scored.t :=
  Js.sort by_score (List.filter (fun s => 0 <? Scored.score s) (annotate index terms)).

Lemma searchSkills_unfold index query limit :
  tokenize query ≠ [] →
  searchSkills (Some index) query limit =
  Ok (Js.slice0 (ranked index (tokenize query)) (default 10 limit)).
Proof.
  intros Hne. unfold searchSkills. destruct (tokenize query) eqn:E; [done |].
  reflexivity.
Qed.

Lemma slice0_take {B} (l : list B) (e : Z) :
  0 <= e → Js.slice0 l e = take (Z.to_nat e) l.
Proof.
  intros He. unfold Js.slice0. destruct (e <? 0) eqn:E; [lia |].
  destruct (Z.le_ge_cases e (Z.of_nat (length l))).
  - by rewrite Z.min_l.
  - rewrite Z.min_r by done. rewrite Nat2Z.id.
    rewrite !take_ge; [done | lia | lia].
Qed.

Lemma by_score_total a b : before by_score a b ∨ before by_score b a.
Proof. unfold before, by_score. lia. Qed.

Lemma by_score_trans a b c :
  before by_score a b → before by_score b c → before by_score a c.
Proof. unfold before, by_score. lia. Qed.

Lemma ranked_positive index terms :
  Forall (fun s => 0 < Scored.score s) (ranked index terms).
Proof.
  unfold ranked. rewrite sort_perm. apply Forall_forall. intros s Hs.
  apply list_elem_of_In, filter_In in Hs as [_ Hs]. by apply Z.ltb_lt.
Qed.

Lemma ranked_ties index terms k :
  0 < k →
  List.filter (fun s => Scored.score s =? k) (ranked index terms) =
  List.filter (fun s => Scored.score s =? k) (annotate index terms).
Proof.
  intros Hk. unfold ranked. rewrite sort_stable.
  - induction (annotate index terms) as [|s l IH]; simpl; [done |].
    destruct (0 <? Scored.score s) eqn:E1, (Scored.score s =? k) eqn:E2;
      simpl; rewrite ?E2, ?IH; try done.
    apply Z.eqb_eq in E2. apply Z.ltb_ge in E1. lia.
  - intros a b Ha Hb. apply Z.eqb_eq in Ha, Hb. unfold before, by_score. lia.
Qed.

End SearchFacts.

(** C5. A query of white space only (the empty query too) has no token, and
    the search returns the empty list whatever the index is, [null]
    included, and whatever the limit. *)
Theorem searchSkills_blank_query (index : option Index.t) (limit : option Z)
    (query : string) :
  all_units (fun c => Js.is_space c = true) query →
  tokenize query = [] ∧ searchSkills index query limit = Ok [].
Proof.
  intros Hblank.
  assert (tokenize query = []) as Htok.
  { unfold tokenize, Js.split_ws. by apply split_go_spaces, toLowerCase_spaces. }
  split; [done |]. unfold searchSkills. by rewrite Htok.
Qed.

Lemma searchSkills_blank_query_witness :
  tokenize "   " = [] ∧ searchSkills None "   " (Some 3) = Ok [].
Proof.
  apply (searchSkills_blank_query None (Some 3) "   "). simpl. tauto.
Defined.

(** The bound on the result as the specification words it: at most [limit]
    records, 10 when no limit is given. *)
Definition at_most_limit (index : Index.t) (query : string) (limit : option Z) : Prop :=
  ∀ results,
    searchSkills (Some index) query limit = Ok results →
    Z.of_nat (length results) <= default 10 limit.

Definition named (n : string) : Skill.t :=
  Skill.mk n None None None None None None.

Definition three_docks : Index.t :=
  Index.mk "1.0.0" (Some 0) ∅ [named "dock"; named "docker"; named "docker-compose"].

Example search_three_docks :
  searchSkills (Some three_docks) "docker" None =
  Ok [Scored.mk (named "docker") 100; Scored.mk (named "docker-compose") 60].
Proof. reflexivity. Qed.

(** C6, as stated, fails for a negative limit: [slice(0, -1)] drops the last
    match and returns the others, here two records for the limit -1. *)
Lemma searchSkills_negative_limit :
  searchSkills (Some three_docks) "dock" (Some (-1)) =
    Ok [Scored.mk (named "dock") 100; Scored.mk (named "docker") 60] ∧
  ¬ at_most_limit three_docks "dock" (Some (-1)).
Proof.
  split; [reflexivity |]. intros H.
  specialize (H _ eq_refl). simpl in H. lia.
Qed.

Lemma sorted_by_score l :
  StronglySorted (before by_score) l →
  StronglySorted (fun a b => Scored.score b <= Scored.score a) l.
Proof.
  induction 1 as [|x l _ IH Hx]; constructor; [done |].
  eapply Forall_impl; [exact Hx |]. unfold before, by_score. intros; lia.
Qed.

(** C6, amended. For every index, every query with a token and every limit
    that is not negative (10 when none is given), the search returns the
    first [limit] records of the ranking of all matches: the ranking holds
    exactly the records of positive score, in descending order of score,
    records of equal score in index order; so no record left out scores
    higher than a record returned. *)
Theorem searchSkills_ranking (index : Index.t) (query : string) (limit : option Z) :
  tokenize query ≠ [] →
  0 <= default 10 limit →
  ∃ results rest,
    searchSkills (Some index) query limit = Ok results ∧
    Forall (fun s => 0 < Scored.score s) (results ++ rest) ∧
    results ++ rest ≡ₚ
      List.filter (fun s => 0 <? Scored.score s) (annotate index (tokenize query)) ∧
    StronglySorted (fun a b => Scored.score b <= Scored.score a) (results ++ rest) ∧
    (∀ k, 0 < k →
       List.filter (fun s => Scored.score s =? k) (results ++ rest) =
       List.filter (fun s => Scored.score s =? k) (annotate index (tokenize query))) ∧
    length results = Nat.min (Z.to_nat (default 10 limit)) (length (results ++ rest)) ∧
    (∀ r s, r ∈ results → s ∈ rest → Scored.score s <= Scored.score r).
Proof.
  intros Hne Hlimit.
  set (all := ranked index (tokenize query)).
  set (n := Z.to_nat (default 10 limit)).
  exists (take n all), (drop n all).
  assert (StronglySorted (fun a b => Scored.score b <= Scored.score a) all) as Hsorted.
  { apply sorted_by_score, sort_sorted; [apply by_score_total | apply by_score_trans]. }
  rewrite take_drop. repeat split.
  - rewrite searchSkills_unfold by done. f_equal. by apply slice0_take.
  - apply ranked_positive.
  - apply sort_perm.
  - exact Hsorted.
  - intros k Hk. by apply ranked_ties.
  - apply length_take.
  - intros r s Hr Hs. rewrite <- (take_drop n all) in Hsorted.
    by apply (StronglySorted_app_1_elem_of _ _ _ r s Hsorted).
Qed.

Lemma searchSkills_ranking_witness :
  ∃ results rest,
    searchSkills (Some three_docks) "docker" (Some 1) = Ok results ∧
    Forall (fun s => 0 < Scored.score s) (results ++ rest) ∧
    results ++ rest ≡ₚ
      List.filter (fun s => 0 <? Scored.score s)
        (annotate three_docks (tokenize "docker")) ∧
    StronglySorted (fun a b => Scored.score b <= Scored.score a) (results ++ rest) ∧
    (∀ k, 0 < k →
       List.filter (fun s => Scored.score s =? k) (results ++ rest) =
       List.filter (fun s => Scored.score s =? k)
         (annotate three_docks (tokenize "docker"))) ∧
    length results = Nat.min (Z.to_nat (default 10 (Some 1))) (length (results ++ rest)) ∧
    (∀ r s, r ∈ results → s ∈ rest → Scored.score s <= Scored.score r).
Proof.
  apply (searchSkills_ranking three_docks "docker" (Some 1)).
  - vm_compute. discriminate.
  - simpl. lia.
Defined.

(** ** Merging *)

Section MergeFacts.

Definition names (skills : list Skill.t) : list string := map Skill.name skills.

(** The filter of [mergeRemote]: the records whose name [existing] lacks. *)
Definition fresh_names (existing : list Skill.t) (skills : list Skill.t) : list Skill.t :=
  List.filter (fun s => negb (bool_decide (Skill.name s ∈ names existing))) skills.

Lemma push_unless {B} (P : B → Prop) `{∀ x, Decision (P x)} (l acc : list B) :
  fold_left (fun acc x => if decide (P x) then acc else acc ++ [x]) l acc =
  acc ++ List.filter (fun x => negb (bool_decide (P x))) l.
Proof.
  revert acc. induction l as [|x l IH]; intros acc; simpl.
  - by rewrite app_nil_r.
  - rewrite IH. destruct (decide (P x)) as [Hx | Hx].
    + by rewrite (bool_decide_eq_true_2 _ Hx).
    + rewrite (bool_decide_eq_false_2 _ Hx). simpl. by rewrite <- app_assoc.
Qed.

Lemma mergeRemote_skills local name remote :
  Loaded.skills (mergeRemote local name (Some remote)) =
  Loaded.skills local ++ fresh_names (Loaded.skills local) (Remote.skills remote).
Proof.
  unfold mergeRemote, fresh_names. simpl.
  rewrite (push_unless (fun s => Skill.name s ∈
             (list_to_set (map Skill.name (Loaded.skills local)) : gset string))).
  f_equal. apply filter_ext. intros s. f_equal.
  apply bool_decide_ext. unfold names. by rewrite elem_of_list_to_set.
Qed.

Lemma fresh_names_elem existing skills s :
  s ∈ fresh_names existing skills ↔ s ∈ skills ∧ Skill.name s ∉ names existing.
Proof.
  unfold fresh_names.
  rewrite list_elem_of_In, filter_In, negb_true_iff, bool_decide_eq_false.
  by rewrite <- list_elem_of_In.
Qed.

Lemma names_app a b : names (a ++ b) = names a ++ names b.
Proof. apply map_app. Qed.

Lemma elem_names s l : s ∈ l → Skill.name s ∈ names l.
Proof. intros. unfold names. by apply list_elem_of_fmap_2. Qed.

(** After a turn of the loop the names present are those present before and
    those of the fetched registry. *)
Lemma mergeRemote_names local name remote x :
  x ∈ names (Loaded.skills (mergeRemote local name (Some remote))) ↔
  x ∈ names (Loaded.skills local) ∨ x ∈ names (Remote.skills remote).
Proof.
  rewrite mergeRemote_skills, names_app, elem_of_app. split.
  - intros [H | H]; [by left | right]. unfold names in H.
    apply list_elem_of_fmap in H as (s & -> & Hs).
    apply fresh_names_elem in Hs as [Hs _]. by apply elem_names.
  - intros [H | H]; [by left |].
    destruct (decide (x ∈ names (Loaded.skills local))) as [Hx | Hx]; [by left |].
    right. unfold names in H. apply list_elem_of_fmap in H as (s & -> & Hs).
    apply elem_names. apply fresh_names_elem. by split.
Qed.

Lemma mergeRemotes_cons local name remote remotes :
  mergeRemotes local ((name, remote) :: remotes) =
  mergeRemotes (mergeRemote local name remote) remotes.
Proof. reflexivity. Qed.

(** The records of a name that is present are not touched by the loop. *)
Lemma mergeRemotes_keeps local remotes x :
  x ∈ names (Loaded.skills local) →
  List.filter (fun s => String.eqb (Skill.name s) x)
              (Loaded.skills (mergeRemotes local remotes)) =
  List.filter (fun s => String.eqb (Skill.name s) x) (Loaded.skills local).
Proof.
  revert local. induction remotes as [|[name remote] remotes IH];
    intros local Hx; [done |].
  rewrite mergeRemotes_cons. destruct remote as [remote|]; [| by apply IH].
  rewrite IH by (apply mergeRemote_names; by left).
  rewrite mergeRemote_skills, List.filter_app.
  rewrite <- (app_nil_r (List.filter _ (Loaded.skills local))) at 2. f_equal.
  unfold fresh_names. induction (Remote.skills remote) as [|s l IHl]; simpl; [done |].
  destruct (bool_decide (Skill.name s ∈ names (Loaded.skills local))) eqn:E;
    simpl; [done |].
  destruct (String.eqb (Skill.name s) x) eqn:E2; [| done].
  apply String.eqb_eq in E2. apply bool_decide_eq_false in E. congruence.
Qed.

Lemma mergeRemotes_local local remotes s :
  s ∈ Loaded.skills local → s ∈ Loaded.skills (mergeRemotes local remotes).
Proof.
  revert local. induction remotes as [|[name remote] remotes IH];
    intros local Hs; [done |].
  rewrite mergeRemotes_cons. apply IH. destruct remote as [remote|]; [| done].
  rewrite mergeRemote_skills. apply elem_of_app. by left.
Qed.

(** Where a record of the merged list comes from: a local registry, or a
    fetched registry such that no earlier source holds the name. *)
Definition from_remote (local : Loaded.t) (remotes : list (string * option Remote.t))
    (s : Skill.t) : Prop :=
  ∃ i name remote,
    (remotes !! i = Some (name, Some remote)) ∧
    s ∈ Remote.skills remote ∧
    (Skill.name s ∉ names (Loaded.skills local)) ∧
    ∀ j name' remote',
      (j < i)%nat → remotes !! j = Some (name', Some remote') →
      Skill.name s ∉ names (Remote.skills remote').

Lemma mergeRemotes_origin local remotes s :
  s ∈ Loaded.skills (mergeRemotes local remotes) →
  s ∈ Loaded.skills local ∨ from_remote local remotes s.
Proof.
  revert local. induction remotes as [|[name remote] remotes IH]; intros local Hs.
  { by left. }
  rewrite mergeRemotes_cons in Hs.
  destruct (IH _ Hs) as [H | (i & n & r & Hi & Hin & Hloc & Hearlier)];
    destruct remote as [remote|].
  - rewrite mergeRemote_skills in H. apply elem_of_app in H as [H | H]; [by left |].
    apply fresh_names_elem in H as [H1 H2]. right.
    exists 0%nat, name, remote. repeat split; [done | done |]. intros; lia.
  - by left.
  - right. exists (S i), n, r. repeat split; [done | done | |].
    + intros Hx. apply Hloc. apply mergeRemote_names. by left.
    + intros [|j] n' r' Hj Hlook; simpl in Hlook.
      * injection Hlook as <- <-. intros Hx. apply Hloc.
        apply mergeRemote_names. by right.
      * apply (Hearlier j n' r'); [lia | done].
  - right. exists (S i), n, r. repeat split; [done | done | done |].
    intros [|j] n' r' Hj Hlook; simpl in Hlook; [done |].
    apply (Hearlier j n' r'); [lia | done].
Qed.

Lemma fresh_names_NoDup existing skills :
  NoDup (names skills) → NoDup (names (fresh_names existing skills)).
Proof.
  unfold fresh_names. induction skills as [|s l IH]; simpl; [done |]. intros Hr.
  apply NoDup_cons in Hr as [Hs Hl].
  destruct (bool_decide _); simpl; [by apply IH |].
  apply NoDup_cons. split; [| by apply IH].
  intros Hin. apply Hs. unfold names in *.
  apply list_elem_of_fmap in Hin as (s' & Heq & Hs').
  apply list_elem_of_In, filter_In in Hs' as [Hs' _].
  rewrite Heq. apply list_elem_of_fmap_2. by apply list_elem_of_In.
Qed.

Lemma mergeRemotes_NoDup local remotes :
  NoDup (names (Loaded.skills local)) →
  (∀ name remote, (name, Some remote) ∈ remotes → NoDup (names (Remote.skills remote))) →
  NoDup (names (Loaded.skills (mergeRemotes local remotes))).
Proof.
  revert local. induction remotes as [|[name remote] remotes IH];
    intros local Hlocal Hremotes; [done |].
  rewrite mergeRemotes_cons. apply IH.
  - destruct remote as [remote|]; [| done].
    rewrite mergeRemote_skills, names_app. apply NoDup_app. split; [done |].
    split.
    + intros x Hx Hx'. unfold names in Hx'.
      apply list_elem_of_fmap in Hx' as (s & -> & Hs).
      apply fresh_names_elem in Hs as [_ Hs]. done.
    + apply fresh_names_NoDup, (Hremotes name). left.
  - intros n r Hin. apply (Hremotes n). by right.
Qed.

End MergeFacts.

(** ** The built index *)

Section CollationFacts.

Lemma localeCompare_root_le a b :
  localeCompare_root a b <= 0 ↔
  lexico (collation_key a) (collation_key b) ∨ collation_key a = collation_key b.
Proof.
  unfold localeCompare_root. repeat case_decide; split; intros; (lia || tauto).
Qed.

Lemma localeCompare_root_total a b :
  localeCompare_root a b <= 0 ∨ localeCompare_root b a <= 0.
Proof.
  rewrite !localeCompare_root_le.
  destruct (trichotomy lexico (collation_key a) (collation_key b)) as [H | [H | H]];
    auto.
Qed.

Lemma localeCompare_root_trans a b c :
  localeCompare_root a b <= 0 → localeCompare_root b c <= 0 →
  localeCompare_root a c <= 0.
Proof.
  rewrite !localeCompare_root_le. intros [H1 | H1] [H2 | H2].
  - left. by transitivity (collation_key b).
  - left. by rewrite <- H2.
  - left. by rewrite H1.
  - right. congruence.
Qed.

End CollationFacts.

(** At most one record per name. *)
Definition one_per_name (index : Index.t) : Prop := NoDup (names (Index.skills index)).

(** The names of an index are in ascending order of their code units. *)
Definition sorted_by_code_units (index : Index.t) : Prop :=
  StronglySorted (fun a b => (a <=? b)%string = true) (names (Index.skills index)).

Definition two_locals : option (list (string * Exc Registry.t)) :=
  Some [("core.json"%string, Ok (Registry.mk (Some [named "x"])));
        ("extra.json"%string, Ok (Registry.mk (Some [named "x"])))].

Definition twice_remote : list (string * option Remote.t) :=
  [("community"%string,
    Some (Remote.mk (RegistryInfo.mk "https://example.org/community.json" 0)
            [Skill.stamp "community" (named "y"); Skill.stamp "community" (named "y")]))].

(** C2, as stated, fails: the records of two local registries are all kept,
    and the names present are looked up once per remote registry, before
    its records are added. *)
Lemma duplicate_names_survive :
  (names (Index.skills
     (makeIndex localeCompare_root (loadLocalRegistries "registries" two_locals 0) [] 0))
     = ["x"; "x"]%string ∧
   ¬ one_per_name
       (makeIndex localeCompare_root (loadLocalRegistries "registries" two_locals 0) [] 0)) ∧
  (names (Index.skills (makeIndex localeCompare_root (Loaded.mk ∅ []) twice_remote 0))
     = ["y"; "y"]%string ∧
   ¬ one_per_name (makeIndex localeCompare_root (Loaded.mk ∅ []) twice_remote 0)).
Proof.
  assert (∀ x : string, ¬ NoDup [x; x]) as Hdup.
  { intros x H. apply NoDup_cons in H as [H _]. apply H. left. }
  split; (split; [reflexivity |]); unfold one_per_name.
  - change (names _) with ["x"; "x"]%string. apply Hdup.
  - change (names _) with ["y"; "y"]%string. apply Hdup.
Qed.

(** C2, amended. When the local registries together hold at most one record
    per name, and each fetched remote registry holds at most one record per
    name, the built index holds at most one record per name. *)
Theorem index_one_per_name (localeCompare : string → string → Z)
    (local : Loaded.t) (remotes : list (string * option Remote.t)) (now : Z) :
  NoDup (names (Loaded.skills local)) →
  (∀ name remote, (name, Some remote) ∈ remotes →
                  NoDup (names (Remote.skills remote))) →
  one_per_name (makeIndex localeCompare local remotes now).
Proof.
  intros Hlocal Hremotes. unfold one_per_name, makeIndex, names. simpl.
  rewrite sort_perm. by apply mergeRemotes_NoDup.
Qed.

Definition local_x : Loaded.t :=
  Loaded.mk ∅ [Skill.mk "x" (Some "the local one") None None None None (Some "core")].

Definition remote_x : list (string * option Remote.t) :=
  [("community"%string,
    Some (Remote.mk (RegistryInfo.mk "https://example.org/community.json" 0)
            [Skill.mk "x" (Some "the remote one") None None None None (Some "community");
             Skill.mk "w" None None None None None (Some "community")]))].

Lemma index_one_per_name_witness :
  one_per_name (makeIndex localeCompare_root local_x remote_x 0).
Proof.
  apply (index_one_per_name localeCompare_root local_x remote_x 0).
  - apply (bool_decide_unpack _). vm_compute. exact I.
  - intros name remote Hin. apply list_elem_of_singleton in Hin.
    injection Hin as -> ->. apply (bool_decide_unpack _). vm_compute. exact I.
Defined.

Example local_description_wins :
  map Skill.description
      (Index.skills (makeIndex localeCompare_root local_x remote_x 0))
  = [None; Some "the local one"%string].
Proof. reflexivity. Qed.

(** C3. Every local record is in the merged index; for a name that a local
    registry holds, the records of that name in the index are the local
    ones, so no remote record of that name is added; and a record of the
    index that is not local comes from a fetched remote registry such that
    neither the local registries nor an earlier fetched remote registry
    hold its name. *)
Theorem merge_precedence (localeCompare : string → string → Z)
    (local : Loaded.t) (remotes : list (string * option Remote.t)) (now : Z) :
  let index := makeIndex localeCompare local remotes now in
  (∀ s, s ∈ Loaded.skills local → s ∈ Index.skills index) ∧
  (∀ x, x ∈ names (Loaded.skills local) →
        List.filter (fun s => String.eqb (Skill.name s) x) (Index.skills index) ≡ₚ
        List.filter (fun s => String.eqb (Skill.name s) x) (Loaded.skills local)) ∧
  (∀ s, s ∈ Index.skills index →
        s ∈ Loaded.skills local ∨ from_remote local remotes s).
Proof.
  simpl. set (cmp := fun a b => localeCompare (Skill.name a) (Skill.name b)).
  repeat split.
  - intros s Hs. rewrite (sort_perm cmp). by apply mergeRemotes_local.
  - intros x Hx. rewrite <- (mergeRemotes_keeps local remotes x Hx).
    assert (∀ l l' : list Skill.t, l ≡ₚ l' →
              List.filter (fun s => String.eqb (Skill.name s) x) l ≡ₚ
              List.filter (fun s => String.eqb (Skill.name s) x) l') as Hfilter.
    { induction 1 as [| a l l' _ IH | a b l | l1 l2 l3 _ IH1 _ IH2]; simpl.
      - done.
      - destruct (String.eqb (Skill.name a) x); [by constructor | done].
      - destruct (String.eqb (Skill.name a) x), (String.eqb (Skill.name b) x);
          (done || apply Permutation_swap).
      - by rewrite IH1. }
    apply Hfilter, sort_perm.
  - intros s Hs. rewrite (sort_perm cmp) in Hs. by apply mergeRemotes_origin.
Qed.

Lemma merge_precedence_witness :
  List.filter (fun s => String.eqb (Skill.name s) "x")
    (Index.skills (makeIndex localeCompare_root local_x remote_x 0)) ≡ₚ
  [Skill.mk "x" (Some "the local one") None None None None (Some "core")].
Proof.
  apply (proj1 (proj2 (merge_precedence localeCompare_root local_x remote_x 0))).
  vm_compute. left.
Defined.

Definition shuffled_locals : option (list (string * Exc Registry.t)) :=
  Some [("core.json"%string, Ok (Registry.mk (Some [named "Zeta"; named "alpha"])))].

(** C7, as stated, fails: [localeCompare] puts "alpha" before "Zeta", and
    the code unit of "Z" is below that of "a". *)
Lemma locale_order_is_not_code_order :
  names (Index.skills
    (makeIndex localeCompare_root
       (loadLocalRegistries "registries" shuffled_locals 0) [] 0))
    = ["alpha"; "Zeta"]%string ∧
  ¬ sorted_by_code_units
      (makeIndex localeCompare_root
         (loadLocalRegistries "registries" shuffled_locals 0) [] 0).
Proof.
  split; [reflexivity |]. unfold sorted_by_code_units.
  change (names _) with ["alpha"; "Zeta"]%string. intros H.
  apply StronglySorted_cons in H as [H _]. apply Forall_cons in H as [H _].
  discriminate H.
Qed.

(** C7, amended. Whatever the registries hold and in whatever order they
    were loaded, the skills of the built index are in ascending order of
    their names for [localeCompare], the collation of the host, provided
    that collation is consistent (total and transitive). *)
Theorem index_sorted_by_localeCompare (localeCompare : string → string → Z)
    (local : Loaded.t) (remotes : list (string * option Remote.t)) (now : Z) :
  (∀ a b, localeCompare a b <= 0 ∨ localeCompare b a <= 0) →
  (∀ a b c, localeCompare a b <= 0 → localeCompare b c <= 0 → localeCompare a c <= 0) →
  StronglySorted (fun a b => localeCompare (Skill.name a) (Skill.name b) <= 0)
                 (Index.skills (makeIndex localeCompare local remotes now)).
Proof.
  intros Htotal Htrans. simpl.
  apply (sort_sorted (fun a b => localeCompare (Skill.name a) (Skill.name b))).
  - intros a b. apply Htotal.
  - intros a b c. apply Htrans.
Qed.

Lemma index_sorted_by_localeCompare_witness :
  StronglySorted (fun a b => localeCompare_root (Skill.name a) (Skill.name b) <= 0)
                 (Index.skills (makeIndex localeCompare_root local_x remote_x 0)).
Proof.
  apply (index_sorted_by_localeCompare localeCompare_root local_x remote_x 0).
  - exact localeCompare_root_total.
  - exact localeCompare_root_trans.
Defined.

(** ** The cache *)

Section CacheFacts.

(** The time to live, in milliseconds. *)
Definition TTL_MS : Z := TTL_HOURS * 60 * 60 * 1000.

Lemma hours_below_ttl now updatedAt :
  (if Qlt_le_dec (hoursSinceUpdate now updatedAt) (inject_Z TTL_HOURS)
   then true else false) = true ↔ now - updatedAt < TTL_MS.
Proof.
  unfold TTL_MS, TTL_HOURS.
  destruct (Qlt_le_dec _ _) as [H | H];
    unfold hoursSinceUpdate, Qlt, Qle, Qdiv, Qmult, Qinv, inject_Z in H;
    simpl in H; split; intros; (done || lia).
Qed.

Lemma isIndexFresh_at_object index now :
  isIndexFresh_at (Cache.Object index) now =
  Ok (match Index.updated_at index with
      | None => false
      | Some t => bool_decide (now - t < TTL_MS)
      end).
Proof.
  unfold isIndexFresh_at. simpl. destruct (Index.updated_at index) as [t|]; [| done].
  simpl. f_equal. apply eq_true_iff_eq. rewrite hours_below_ttl.
  by rewrite bool_decide_eq_true.
Qed.

(** What has aged stays aged. *)
Lemma stale_stays_stale f now now' :
  now <= now' → isIndexFresh_at f now = Ok false → isIndexFresh_at f now' = Ok false.
Proof.
  intros Hle. destruct f as [| | | |index]; try done.
  rewrite !isIndexFresh_at_object. destruct (Index.updated_at index) as [t|]; [| done].
  intros [= H]. f_equal. apply bool_decide_eq_false in H.
  apply bool_decide_eq_false. lia.
Qed.

End CacheFacts.

(** C4. Neither reader of the cache throws.  [isIndexFresh] is false when
    the file is missing, cannot be read, holds no JSON or holds [null], and
    when the time stamp of the index is no date; otherwise it is true
    exactly when less than 24 hours (86 400 000 ms) passed since
    [updated_at].  [loadExistingIndex] returns the parsed index, and
    [null] on any failure.  An index aged 23 h 59 min is fresh, one aged
    24 h or 24 h 01 min is stale. *)
Theorem cache_readers (f : Cache.t) (now : Z) :
  (∃ b, isIndexFresh_at f now = Ok b) ∧
  (∃ r, loadExistingIndex_at f = Ok r) ∧
  match f with
  | Cache.Missing | Cache.Unreadable | Cache.Malformed | Cache.Null =>
      isIndexFresh_at f now = Ok false ∧ loadExistingIndex_at f = Ok None
  | Cache.Object index =>
      loadExistingIndex_at f = Ok (Some index) ∧
      match Index.updated_at index with
      | None => isIndexFresh_at f now = Ok false
      | Some t =>
          (isIndexFresh_at f now = Ok true ↔ now - t < 24 * 60 * 60 * 1000) ∧
          (isIndexFresh_at f now = Ok false ↔ 24 * 60 * 60 * 1000 <= now - t)
      end
  end ∧
  (∀ v r s,
     isIndexFresh_at
       (Cache.Object (Index.mk v (Some (now - (23 * 60 + 59) * 60 * 1000)) r s)) now
       = Ok true ∧
     isIndexFresh_at
       (Cache.Object (Index.mk v (Some (now - 24 * 60 * 60 * 1000)) r s)) now
       = Ok false ∧
     isIndexFresh_at
       (Cache.Object (Index.mk v (Some (now - (24 * 60 + 1) * 60 * 1000)) r s)) now
       = Ok false).
Proof.
  split; [| split; [| split]].
  - destruct f as [| | | |index]; try by eexists.
    rewrite isIndexFresh_at_object. by eexists.
  - destruct f; by eexists.
  - destruct f as [| | | |index]; try done. split; [done |].
    rewrite isIndexFresh_at_object. destruct (Index.updated_at index) as [t|]; [| done].
    change (24 * 60 * 60 * 1000) with TTL_MS. split.
    + split; [intros [= H]; by apply bool_decide_eq_true in H |].
      intros H. f_equal. by apply bool_decide_eq_true.
    + split; [intros [= H]; apply bool_decide_eq_false in H; lia |].
      intros H. f_equal. apply bool_decide_eq_false. lia.
  - intros v r s. rewrite !isIndexFresh_at_object. simpl. unfold TTL_MS, TTL_HOURS.
    repeat split; f_equal;
      [apply bool_decide_eq_true | apply bool_decide_eq_false ..]; lia.
Qed.

(** ** The network fetch *)

Section FetchFacts.

(** A response with status 301 or 302. *)
Definition is_redirect (r : Http.Response) : bool :=
  match r with
  | Http.NetworkError => false
  | Http.Reply statusCode _ _ => (statusCode =? 301) || (statusCode =? 302)
  end.

(** How a response that is no redirect settles the promise. *)
Definition settle (r : Http.Response) : Settled :=
  match r with
  | Http.NetworkError => Rejected
  | Http.Reply statusCode _ body =>
      if statusCode =? 200
      then match body with Some data => Resolved data | None => Rejected end
      else Rejected
  end.

(** [chain net n url final]: [n] redirects lead from [url] to [final], whose
    response is no redirect. *)
Inductive chain (net : string → Http.Response) : nat → string → string → Prop :=
  | chain_end url :
      is_redirect (net url) = false → chain net 0 url url
  | chain_hop n url statusCode location body final :
      net url = Http.Reply statusCode location body →
      is_redirect (net url) = true →
      chain net n location final →
      chain net (S n) url final.

Lemma get_final net fuel url :
  is_redirect (net url) = false → get net (S fuel) url = Some (settle (net url)).
Proof.
  simpl. destruct (net url) as [|statusCode location body]; [done |]. simpl.
  intros ->. by destruct (statusCode =? 200), body.
Qed.

Lemma get_hop net fuel url statusCode location body :
  net url = Http.Reply statusCode location body →
  is_redirect (net url) = true →
  get net (S fuel) url = get net fuel location.
Proof. intros H. simpl. rewrite H. simpl. by intros ->. Qed.

(** A chain of [n] redirects takes [n + 1] requests, and no fewer. *)
Lemma get_chain net n url final :
  chain net n url final →
  ∀ fuel, get net fuel url =
          if decide (n < fuel)%nat then Some (settle (net final)) else None.
Proof.
  induction 1 as [url Hend | n url statusCode location body final Hnet Hred _ IH];
    intros [|fuel].
  - done.
  - rewrite get_final by done. by rewrite decide_True by lia.
  - done.
  - rewrite (get_hop _ _ _ _ _ _ Hnet Hred), IH.
    destruct (decide (n < fuel)%nat); [by rewrite decide_True by lia |].
    by rewrite decide_False by lia.
Qed.

(** A promise that settles does so at the end of a chain. *)
Lemma get_settles net fuel url r :
  get net fuel url = Some r →
  ∃ n final, (n < fuel)%nat ∧ chain net n url final ∧ r = settle (net final).
Proof.
  revert url. induction fuel as [|fuel IH]; intros url Hget; [done |].
  destruct (is_redirect (net url)) eqn:Hred.
  - destruct (net url) as [|statusCode location body] eqn:Hnet; [done |].
    rewrite <- Hnet in Hred. rewrite (get_hop _ _ _ _ _ _ Hnet Hred) in Hget.
    destruct (IH _ Hget) as (n & final & Hn & Hchain & ->).
    exists (S n), final. split; [lia |]. split; [| done].
    by apply (chain_hop net n url statusCode location body).
  - rewrite get_final in Hget by done. injection Hget as <-.
    exists 0%nat, url. split; [lia |]. split; [by constructor | done].
Qed.

End FetchFacts.

(** A server that answers every request with a redirect to the same URL. *)
Definition redirect_loop : string → Http.Response :=
  fun url => Http.Reply 302 url None.

(** A server that answers after [n] redirects: the URL counts them down. *)
Definition redirect_countdown : string → Http.Response :=
  fun url =>
    match url with
    | EmptyString => Http.Reply 200 EmptyString (Some "{}"%string)
    | String _ rest => Http.Reply 301 rest None
    end.

(** C8, as stated, fails: the fetch follows a cyclic chain of redirects
    for ever, and no number of requests suffices for every server. *)
Lemma fetchUrl_unbounded :
  (∀ fuel, fetchUrl redirect_loop fuel "https://example.org/a" = None) ∧
  ¬ (∃ bound, ∀ net url, fetchUrl net bound url ≠ None).
Proof.
  assert (∀ fuel url, fetchUrl redirect_loop fuel url = None) as Hloop.
  { unfold fetchUrl. induction fuel as [|fuel IH]; intros url; [done |].
    simpl. apply IH. }
  split; [intros fuel; apply Hloop |].
  intros (bound & H). by apply (H redirect_loop EmptyString).
Qed.

(** C8, amended. The fetch follows every 301 or 302 redirect, with no bound
    on their number: on a chain of [n] redirects that ends in a response
    that is no redirect it settles after [n + 1] requests and no fewer, as
    that response says; and it settles on such chains only. *)
Theorem fetchUrl_follows_every_redirect (net : string → Http.Response) (url : string) :
  (∀ n final, chain net n url final →
     fetchUrl net (S n) url = Some (settle (net final)) ∧
     ∀ fuel, (fuel <= n)%nat → fetchUrl net fuel url = None) ∧
  (∀ fuel r, fetchUrl net fuel url = Some r →
     ∃ n final, (n < fuel)%nat ∧ chain net n url final ∧ r = settle (net final)).
Proof.
  unfold fetchUrl. split.
  - intros n final Hchain. split.
    + rewrite (get_chain _ _ _ _ Hchain). by rewrite decide_True by lia.
    + intros fuel Hfuel. rewrite (get_chain _ _ _ _ Hchain).
      by rewrite decide_False by lia.
  - intros fuel r. apply get_settles.
Qed.

Example fetchUrl_three_redirects :
  fetchUrl redirect_countdown 3 "abc" = None ∧
  fetchUrl redirect_countdown 4 "abc" = Some (Resolved "{}").
Proof. split; reflexivity. Qed.

Lemma fetchUrl_follows_every_redirect_witness :
  fetchUrl redirect_countdown 4 "abc" = Some (Resolved "{}") ∧
  ∀ fuel, (fuel <= 3)%nat → fetchUrl redirect_countdown fuel "abc" = None.
Proof.
  apply (proj1 (fetchUrl_follows_every_redirect redirect_countdown "abc") 3%nat
           EmptyString).
  apply (chain_hop _ _ "abc" 301 "bc" None); [reflexivity | reflexivity |].
  apply (chain_hop _ _ "bc" 301 "c" None); [reflexivity | reflexivity |].
  apply (chain_hop _ _ "c" 301 EmptyString None); [reflexivity | reflexivity |].
  by apply chain_end.
Defined.

(** ** The search orchestrator *)

Section OrchestratorFacts.
Variable localeCompare : string → string → Z.
Variable REGISTRIES_DIR : string.
Variable remotes : list (string * option Remote.t).

(** The answers of the two readers of the cache, which never throw. *)
Definition is_fresh (f : Cache.t) (now : Z) : bool :=
  match f with
  | Cache.Object index =>
      match Index.updated_at index with
      | Some t => bool_decide (now - t < TTL_MS)
      | None => false
      end
  | _ => false
  end.

Definition cached (f : Cache.t) : option Index.t :=
  match f with Cache.Object index => Some index | _ => None end.

Lemma isIndexFresh_at_is_fresh f now : isIndexFresh_at f now = Ok (is_fresh f now).
Proof. destruct f; try done. apply isIndexFresh_at_object. Qed.

Lemma loadExistingIndex_at_cached f : loadExistingIndex_at f = Ok (cached f).
Proof. by destruct f. Qed.

(** The index a build makes in the world [w], and the world once it is
    saved. *)
Definition rebuilt_from (w : World.t) : Index.t :=
  makeIndex localeCompare
    (loadLocalRegistries REGISTRIES_DIR (World.registries_dir w) (World.clock w))
    remotes (World.clock w).

Definition saved (w : World.t) (index : Index.t) : World.t :=
  World.mk (World.clock w) (Cache.Object index) true (World.registries_dir w)
           (World.agenda w) (index :: World.written w).

Lemma env_step_writable w :
  World.index_dir_writable (env_step w) = World.index_dir_writable w.
Proof. unfold env_step. by destruct (World.agenda w). Qed.

Lemma isIndexFresh_run w :
  isIndexFresh w =
  (env_step w, Ok (is_fresh (World.index_file (env_step w)) (World.clock (env_step w)))).
Proof. unfold isIndexFresh. by rewrite isIndexFresh_at_is_fresh. Qed.

Lemma loadExistingIndex_run w :
  loadExistingIndex w = (env_step w, Ok (cached (World.index_file (env_step w)))).
Proof. unfold loadExistingIndex. by rewrite loadExistingIndex_at_cached. Qed.

(** A build that is not skipped: one step, then the index is made and
    saved. *)
Definition build (w : World.t) : World.t * Exc (option Index.t) :=
  (saved (env_step w) (rebuilt_from (env_step w)), Ok (Some (rebuilt_from (env_step w)))).

Lemma buildIndex_forced w :
  World.index_dir_writable w = true →
  buildIndex localeCompare REGISTRIES_DIR remotes true w = build w.
Proof.
  intros Hw. unfold buildIndex, mbind, M_bind, mret, M_ret, readLocalRegistries,
    Date_now, writeIndex. simpl. by rewrite env_step_writable, Hw.
Qed.

Lemma buildIndex_unforced w :
  World.index_dir_writable w = true →
  buildIndex localeCompare REGISTRIES_DIR remotes false w =
  if is_fresh (World.index_file (env_step w)) (World.clock (env_step w))
  then (env_step (env_step w), Ok (cached (World.index_file (env_step (env_step w)))))
  else build (env_step w).
Proof.
  intros Hw. unfold buildIndex, mbind, M_bind. simpl.
  rewrite isIndexFresh_at_is_fresh.
  destruct (is_fresh _ _); [apply loadExistingIndex_run |].
  unfold mret, M_ret, readLocalRegistries, Date_now, writeIndex. simpl.
  by rewrite !env_step_writable, Hw.
Qed.

(** No event of the agenda replaces the cache. *)
Definition undisturbed (agenda : list Event.t) : Prop :=
  Forall (fun e => Event.replaced e = None) agenda.

(** The time the agenda takes. *)
Definition duration (agenda : list Event.t) : Z :=
  foldr (fun e d => Z.of_N (Event.elapsed e) + d) 0 agenda.

Lemma duration_nonneg agenda : 0 <= duration agenda.
Proof. induction agenda; simpl; lia. Qed.

Lemma env_step_registries w :
  World.registries_dir (env_step w) = World.registries_dir w.
Proof. unfold env_step. by destruct (World.agenda w). Qed.

Lemma env_step_written w : World.written (env_step w) = World.written w.
Proof. unfold env_step. by destruct (World.agenda w). Qed.

Lemma env_step_undisturbed w :
  undisturbed (World.agenda w) →
  World.index_file (env_step w) = World.index_file w ∧
  undisturbed (World.agenda (env_step w)).
Proof.
  unfold env_step, undisturbed. destruct (World.agenda w) as [|e agenda] eqn:E.
  - intros _. rewrite E. split; [done | constructor].
  - intros H. apply Forall_cons in H as [-> H]. done.
Qed.

Lemma env_step_clock w :
  World.clock w <= World.clock (env_step w) ∧
  World.clock (env_step w) + duration (World.agenda (env_step w)) =
  World.clock w + duration (World.agenda w).
Proof.
  unfold env_step. destruct (World.agenda w) as [|e agenda] eqn:E; simpl.
  - rewrite E. simpl. lia.
  - lia.
Qed.

Lemma bind_ok {A B} (m : M A) (k : A → M B) w w' a :
  m w = (w', Ok a) → (m ≫= k) w = k a w'.
Proof. intros H. unfold mbind, M_bind. by rewrite H. Qed.

Lemma searchSkills_some index query limit :
  ∃ results, searchSkills (Some index) query limit = Ok results.
Proof. unfold searchSkills. destruct (Nat.eqb _ _); by eexists. Qed.

Lemma cons_differs {B} (x : B) (l : list B) : x :: l ≠ l.
Proof. intros H. apply (f_equal length) in H. simpl in H. lia. Qed.

(** The index was built anew and saved between [w] and [w']. *)
Definition rebuilt (w w' : World.t) (index : Index.t) : Prop :=
  World.written w' = index :: World.written w ∧
  World.index_file w' = Cache.Object index ∧
  ∃ now, index =
    makeIndex localeCompare
      (loadLocalRegistries REGISTRIES_DIR (World.registries_dir w) now) remotes now.

(** The cached index was used as it is. *)
Definition reused (w w' : World.t) (index : Index.t) : Prop :=
  World.written w' = World.written w ∧
  World.index_file w' = World.index_file w ∧
  World.index_file w = Cache.Object index.

Lemma search_forced query options w :
  Options.rebuild options || Options.online options = true →
  World.index_dir_writable w = true →
  ∃ w' res index,
    search localeCompare REGISTRIES_DIR remotes query options w = (w', Ok res) ∧
    searchSkills (Some index) query (Options.limit options) = Ok (SearchResult.results res) ∧
    SearchResult.fromCache res = false ∧
    rebuilt w w' index.
Proof.
  intros Hf Hw. unfold search. rewrite Hf.
  rewrite (bind_ok Date_now _ w w (World.clock w)) by done.
  rewrite (bind_ok (mret true) _ w w true) by done.
  rewrite (bind_ok _ _ _ _ _ (buildIndex_forced w Hw)).
  destruct (searchSkills_some (rebuilt_from (env_step w)) query (Options.limit options))
    as [results Hres].
  unfold lift. rewrite (bind_ok _ _ _ _ results) by (by rewrite Hres).
  rewrite (bind_ok Date_now _ _ _ _ eq_refl).
  assert (negb (Options.rebuild options) && negb (Options.online options) = false) as ->
    by (destruct (Options.rebuild options), (Options.online options); done).
  rewrite (bind_ok (mret false) _ _ _ false) by done.
  eexists _, _, _. split; [reflexivity |]. split; [exact Hres |]. split; [done |].
  split; [simpl; by rewrite env_step_written |]. split; [done |].
  exists (World.clock (env_step w)). unfold rebuilt_from. by rewrite env_step_registries.
Qed.

(** What [is_fresh()] answers when asked in the world [w]. *)
Definition observes_fresh (w : World.t) (fresh : bool) : Prop :=
  snd (isIndexFresh w) = Ok fresh.

Lemma observes_fresh_spec w fresh :
  observes_fresh w fresh ↔
  is_fresh (World.index_file (env_step w)) (World.clock (env_step w)) = fresh.
Proof.
  unfold observes_fresh. rewrite isIndexFresh_run. simpl.
  split; [by intros [= ->] | by intros ->].
Qed.

Lemma is_fresh_later f now now' :
  now <= now' → is_fresh f now = false → is_fresh f now' = false.
Proof.
  intros Hle H. pose proof (stale_stays_stale f now now' Hle) as Hs.
  rewrite !isIndexFresh_at_is_fresh in Hs. rewrite H in Hs.
  by injection (Hs eq_refl).
Qed.

Lemma stale_check_run w :
  (isIndexFresh ≫= λ fresh : bool, (mret (negb fresh) : M bool)) w =
  (env_step w,
   Ok (negb (is_fresh (World.index_file (env_step w)) (World.clock (env_step w))))).
Proof. by rewrite (bind_ok _ _ _ _ _ (isIndexFresh_run w)). Qed.

(** The end of [search] once the index is there. *)
Lemma search_tail query limit (start : Z) index w :
  ∃ results,
    searchSkills (Some index) query limit = Ok results ∧
    (lift (searchSkills (Some index) query limit)
     ≫= λ results : list Scored.t,
          Date_now
          ≫= λ now : Z,
               isIndexFresh
               ≫= λ fromCache : bool,
                    mret (SearchResult.mk results (now - start) fromCache)) w =
    (env_step w,
     Ok (SearchResult.mk results (World.clock w - start)
           (is_fresh (World.index_file (env_step w)) (World.clock (env_step w))))).
Proof.
  destruct (searchSkills_some index query limit) as [results Hres].
  exists results. split; [done |]. unfold lift.
  rewrite (bind_ok _ _ w w results) by (by rewrite Hres).
  rewrite (bind_ok Date_now _ _ _ _ eq_refl).
  by rewrite (bind_ok _ _ _ _ _ (isIndexFresh_run w)).
Qed.

Lemma env_step_saved w index :
  undisturbed (World.agenda w) →
  World.index_file (env_step (saved w index)) = Cache.Object index ∧
  World.written (env_step (saved w index)) = index :: World.written w ∧
  World.clock (env_step (saved w index)) <= World.clock w + duration (World.agenda w).
Proof.
  intros Hu.
  destruct (env_step_undisturbed (saved w index) Hu) as [-> _].
  rewrite env_step_written.
  pose proof (env_step_clock (saved w index)) as [_ Hc]. simpl in Hc.
  pose proof (duration_nonneg (World.agenda (env_step (saved w index)))).
  repeat split. lia.
Qed.

Lemma search_stale query options w :
  Options.rebuild options = false →
  Options.online options = false →
  World.index_dir_writable w = true →
  undisturbed (World.agenda w) →
  observes_fresh w false →
  ∃ w' res index,
    search localeCompare REGISTRIES_DIR remotes query options w = (w', Ok res) ∧
    searchSkills (Some index) query (Options.limit options) = Ok (SearchResult.results res) ∧
    rebuilt w w' index ∧
    (duration (World.agenda w) < TTL_MS → SearchResult.fromCache res = true).
Proof.
  intros Hr Ho Hw Hu Hstale. apply observes_fresh_spec in Hstale.
  set (w1 := env_step w) in *. set (w2 := env_step w1). set (w3 := env_step w2).
  destruct (env_step_undisturbed w Hu) as [Hf1 Hu1]. fold w1 in Hf1, Hu1.
  destruct (env_step_undisturbed w1 Hu1) as [Hf2 Hu2]. fold w2 in Hf2, Hu2.
  destruct (env_step_undisturbed w2 Hu2) as [Hf3 Hu3]. fold w3 in Hf3, Hu3.
  pose proof (env_step_clock w) as [Hc1 Hd1]. fold w1 in Hc1, Hd1.
  pose proof (env_step_clock w1) as [Hc2 Hd2]. fold w2 in Hc2, Hd2.
  pose proof (env_step_clock w2) as [Hc3 Hd3]. fold w3 in Hc3, Hd3.
  set (index := rebuilt_from w3).
  destruct (search_tail query (Options.limit options) (World.clock w) index (saved w3 index))
    as (results & Hres & Htail).
  destruct (env_step_saved w3 index Hu3) as (Hfile & Hwritten & Hclock).
  eexists _, _, index. split; [| split; [| split]].
  - unfold search. rewrite Hr, Ho. cbn [orb andb negb].
    rewrite (bind_ok Date_now _ w w (World.clock w)) by done.
    rewrite (bind_ok _ _ _ _ _ (stale_check_run w)). fold w1. rewrite Hstale.
    cbn [negb].
    assert (buildIndex localeCompare REGISTRIES_DIR remotes false w1 =
            (saved w3 index, Ok (Some index))) as Hbuild.
    { rewrite buildIndex_unforced by (unfold w1; by rewrite env_step_writable).
      fold w2.
      rewrite Hf2, (is_fresh_later _ _ _ Hc2 Hstale). done. }
    rewrite (bind_ok _ _ _ _ _ Hbuild). exact Htail.
  - exact Hres.
  - split; [| split].
    + rewrite Hwritten. unfold w3, w2, w1. by rewrite !env_step_written.
    + exact Hfile.
    + exists (World.clock w3). unfold index, rebuilt_from.
      unfold w3, w2, w1. by rewrite !env_step_registries.
  - intros Hd. simpl. rewrite Hfile. simpl.
    apply bool_decide_eq_true. lia.
Qed.

Lemma is_fresh_object f now :
  is_fresh f now = true → ∃ index, f = Cache.Object index.
Proof. destruct f; try done. by eexists. Qed.

Lemma cached_none_stale f now : cached f = None → is_fresh f now = false.
Proof. by destruct f. Qed.

Lemma search_fresh query options w :
  Options.rebuild options = false →
  Options.online options = false →
  undisturbed (World.agenda w) →
  observes_fresh w true →
  ∃ w' res index,
    search localeCompare REGISTRIES_DIR remotes query options w = (w', Ok res) ∧
    searchSkills (Some index) query (Options.limit options) = Ok (SearchResult.results res) ∧
    reused w w' index.
Proof.
  intros Hr Ho Hu Hfresh. apply observes_fresh_spec in Hfresh.
  set (w1 := env_step w) in *. set (w2 := env_step w1). set (w3 := env_step w2).
  destruct (env_step_undisturbed w Hu) as [Hf1 Hu1]. fold w1 in Hf1, Hu1.
  destruct (env_step_undisturbed w1 Hu1) as [Hf2 Hu2]. fold w2 in Hf2, Hu2.
  destruct (env_step_undisturbed w2 Hu2) as [Hf3 Hu3]. fold w3 in Hf3, Hu3.
  destruct (is_fresh_object _ _ Hfresh) as [index Hindex].
  destruct (search_tail query (Options.limit options) (World.clock w) index w2)
    as (results & Hres & Htail).
  eexists _, _, index. split; [| split].
  - unfold search. rewrite Hr, Ho. cbn [orb andb negb].
    rewrite (bind_ok Date_now _ w w (World.clock w)) by done.
    rewrite (bind_ok _ _ _ _ _ (stale_check_run w)). fold w1. rewrite Hfresh.
    cbn [negb].
    assert ((loadExistingIndex
             ≫= λ index : option Index.t,
                  match index with
                  | Some _ => mret index
                  | None => buildIndex localeCompare REGISTRIES_DIR remotes false
                  end) w1 = (w2, Ok (Some index))) as Hload.
    { rewrite (bind_ok _ _ _ _ _ (loadExistingIndex_run w1)). fold w2.
      by rewrite Hf2, Hindex. }
    rewrite (bind_ok _ _ _ _ _ Hload). exact Htail.
  - exact Hres.
  - unfold reused. fold w3. rewrite Hf3, Hf2, Hf1. split; [| by rewrite <- Hf1].
    unfold w3, w2, w1. by rewrite !env_step_written.
Qed.

Lemma env_step_cons w e agenda :
  World.agenda w = e :: agenda →
  env_step w =
  World.mk (World.clock w + Z.of_N (Event.elapsed e))
           (default (World.index_file w) (Event.replaced e))
           (World.index_dir_writable w) (World.registries_dir w) agenda
           (World.written w).
Proof. intros H. unfold env_step. by rewrite H. Qed.

Lemma search_fallback query options w e1 e2 agenda f :
  Options.rebuild options = false →
  Options.online options = false →
  World.index_dir_writable w = true →
  World.agenda w = e1 :: e2 :: agenda →
  Event.replaced e1 = None →
  Event.replaced e2 = Some f →
  loadExistingIndex_at f = Ok None →
  undisturbed agenda →
  observes_fresh w true →
  ∃ w' res index,
    search localeCompare REGISTRIES_DIR remotes query options w = (w', Ok res) ∧
    searchSkills (Some index) query (Options.limit options) = Ok (SearchResult.results res) ∧
    rebuilt w w' index.
Proof.
  intros Hr Ho Hw Hagenda He1 He2 Habsent Hu Hfresh.
  apply observes_fresh_spec in Hfresh.
  rewrite loadExistingIndex_at_cached in Habsent. injection Habsent as Habsent.
  set (w1 := env_step w) in *. set (w2 := env_step w1). set (w3 := env_step w2).
  set (w4 := env_step w3).
  assert (World.agenda w1 = e2 :: agenda) as Ha1
    by (unfold w1; by rewrite (env_step_cons w _ _ Hagenda)).
  assert (World.agenda w2 = agenda ∧ World.index_file w2 = f) as [Ha2 Hf2].
  { unfold w2. rewrite (env_step_cons w1 _ _ Ha1). simpl. by rewrite He2. }
  rewrite <- Ha2 in Hu.
  destruct (env_step_undisturbed w2 Hu) as [Hf3 Hu3]. fold w3 in Hf3, Hu3.
  destruct (env_step_undisturbed w3 Hu3) as [Hf4 Hu4]. fold w4 in Hf4, Hu4.
  set (index := rebuilt_from w4).
  destruct (search_tail query (Options.limit options) (World.clock w) index (saved w4 index))
    as (results & Hres & Htail).
  destruct (env_step_saved w4 index Hu4) as (Hfile & Hwritten & _).
  eexists _, _, index. split; [| split].
  - unfold search. rewrite Hr, Ho. cbn [orb andb negb].
    rewrite (bind_ok Date_now _ w w (World.clock w)) by done.
    rewrite (bind_ok _ _ _ _ _ (stale_check_run w)). fold w1. rewrite Hfresh.
    cbn [negb].
    assert ((loadExistingIndex
             ≫= λ index : option Index.t,
                  match index with
                  | Some _ => mret index
                  | None => buildIndex localeCompare REGISTRIES_DIR remotes false
                  end) w1 = (saved w4 index, Ok (Some index))) as Hload.
    { rewrite (bind_ok _ _ _ _ _ (loadExistingIndex_run w1)). fold w2.
      rewrite Hf2, Habsent.
      rewrite buildIndex_unforced
        by (unfold w2, w1; by rewrite !env_step_writable).
      fold w3. rewrite Hf3, Hf2. by rewrite (cached_none_stale f _ Habsent). }
    rewrite (bind_ok _ _ _ _ _ Hload). exact Htail.
  - exact Hres.
  - split; [| split].
    + rewrite Hwritten. unfold w4, w3, w2, w1. by rewrite !env_step_written.
    + exact Hfile.
    + exists (World.clock w4). unfold index, rebuilt_from.
      unfold w4, w3, w2, w1. by rewrite !env_step_registries.
Qed.

(** C9. With a cache directory that can be written: when no other process
    touches the cache during the call, [search] rebuilds and saves the
    index exactly when [rebuild] or [online] is set or [isIndexFresh()]
    answers false, and otherwise searches the cached index and writes
    nothing; and when the cache was fresh but has become absent by the time
    it is loaded, [search] rebuilds the index and returns its results. *)
Theorem search_rebuild_policy (query : string) (options : Options.t) (w : World.t) :
  World.index_dir_writable w = true →
  (undisturbed (World.agenda w) →
   ∀ fresh, observes_fresh w fresh →
   ∃ w' res index,
     search localeCompare REGISTRIES_DIR remotes query options w = (w', Ok res) ∧
     searchSkills (Some index) query (Options.limit options)
       = Ok (SearchResult.results res) ∧
     (if Options.rebuild options || Options.online options || negb fresh
      then rebuilt w w' index
      else reused w w' index) ∧
     (World.written w' ≠ World.written w ↔
      Options.rebuild options || Options.online options || negb fresh = true)) ∧
  (∀ e1 e2 agenda f,
     Options.rebuild options = false →
     Options.online options = false →
     World.agenda w = e1 :: e2 :: agenda →
     Event.replaced e1 = None →
     Event.replaced e2 = Some f →
     loadExistingIndex_at f = Ok None →
     undisturbed agenda →
     observes_fresh w true →
     ∃ w' res index,
       search localeCompare REGISTRIES_DIR remotes query options w = (w', Ok res) ∧
       searchSkills (Some index) query (Options.limit options)
         = Ok (SearchResult.results res) ∧
       rebuilt w w' index).
Proof.
  intros Hw. split.
  - intros Hu fresh Hfresh.
    destruct (Options.rebuild options || Options.online options) eqn:Hforce.
    + destruct (search_forced query options w Hforce Hw)
        as (w' & res & index & H1 & H2 & _ & H3).
      exists w', res, index. split; [done |]. split; [done |]. split; [done |].
      split; [done |]. intros _. destruct H3 as [-> _]. apply cons_differs.
    + apply orb_false_iff in Hforce as [Hr Ho]. destruct fresh; simpl.
      * destruct (search_fresh query options w Hr Ho Hu Hfresh)
          as (w' & res & index & H1 & H2 & H3).
        exists w', res, index. split; [done |]. split; [done |]. split; [done |].
        split; [| done]. intros Hne. destruct H3 as [Heq _]. by destruct Hne.
      * destruct (search_stale query options w Hr Ho Hw Hu Hfresh)
          as (w' & res & index & H1 & H2 & H3 & _).
        exists w', res, index. split; [done |]. split; [done |]. split; [done |].
        split; [done |]. intros _. destruct H3 as [-> _]. apply cons_differs.
  - intros e1 e2 agenda f Hr Ho Ha He1 He2 Hf Hu Hfresh.
    by apply (search_fallback query options w e1 e2 agenda f).
Qed.

(** C10. A call with [rebuild] and [online] unset that finds the cache
    stale rebuilds the index and still returns [fromCache = true]: the flag
    is [isIndexFresh()] asked again after the rebuild has saved a new
    index.  The call is taken to last less than the 24 hours of the time to
    live, with a cache directory that can be written and no other process
    touching the cache. *)
Theorem search_fromCache_after_rebuild (query : string) (options : Options.t)
    (w : World.t) :
  Options.rebuild options = false →
  Options.online options = false →
  World.index_dir_writable w = true →
  undisturbed (World.agenda w) →
  duration (World.agenda w) < TTL_MS →
  observes_fresh w false →
  ∃ w' res index,
    search localeCompare REGISTRIES_DIR remotes query options w = (w', Ok res) ∧
    rebuilt w w' index ∧
    SearchResult.fromCache res = true.
Proof.
  intros Hr Ho Hw Hu Hd Hstale.
  destruct (search_stale query options w Hr Ho Hw Hu Hstale)
    as (w' & res & index & H1 & _ & H3 & H4).
  exists w', res, index. auto.
Qed.

End OrchestratorFacts.

Definition cached_dock : Cache.t :=
  Cache.Object (Index.mk "1.0.0" (Some 0) ∅ [named "dock"]).

Definition stale_world : World.t :=
  World.mk 100000000 cached_dock true shuffled_locals
           [Event.mk 5 None; Event.mk 7 None] [].

Definition fresh_world : World.t :=
  World.mk 1000 cached_dock true shuffled_locals [Event.mk 5 None] [].

Definition raced_world : World.t :=
  World.mk 1000 cached_dock true shuffled_locals
           [Event.mk 1 None; Event.mk 1 (Some Cache.Missing)] [].

Definition plain : Options.t := Options.mk false false None.

Lemma search_rebuild_policy_witness :
  (∃ w' res index,
     search localeCompare_root "registries" [] "alpha" plain stale_world = (w', Ok res) ∧
     rebuilt localeCompare_root "registries" [] stale_world w' index) ∧
  (∃ w' res index,
     search localeCompare_root "registries" [] "dock" plain fresh_world = (w', Ok res) ∧
     reused fresh_world w' index) ∧
  (∃ w' res index,
     search localeCompare_root "registries" [] "alpha" plain raced_world = (w', Ok res) ∧
     rebuilt localeCompare_root "registries" [] raced_world w' index).
Proof.
  split; [| split].
  - destruct (search_rebuild_policy localeCompare_root "registries" [] "alpha" plain
                stale_world eq_refl) as [H _].
    destruct (H ltac:(repeat constructor) false eq_refl)
      as (w' & res & index & H1 & _ & H3 & _).
    by exists w', res, index.
  - destruct (search_rebuild_policy localeCompare_root "registries" [] "dock" plain
                fresh_world eq_refl) as [H _].
    destruct (H ltac:(repeat constructor) true eq_refl)
      as (w' & res & index & H1 & _ & H3 & _).
    by exists w', res, index.
  - destruct (search_rebuild_policy localeCompare_root "registries" [] "alpha" plain
                raced_world eq_refl) as [_ H].
    destruct (H (Event.mk 1 None) (Event.mk 1 (Some Cache.Missing)) [] Cache.Missing
                eq_refl eq_refl eq_refl eq_refl eq_refl eq_refl
                ltac:(constructor) eq_refl)
      as (w' & res & index & H1 & _ & H3).
    by exists w', res, index.
Defined.

Lemma search_fromCache_after_rebuild_witness :
  ∃ w' res index,
    search localeCompare_root "registries" [] "alpha" plain stale_world = (w', Ok res) ∧
    rebuilt localeCompare_root "registries" [] stale_world w' index ∧
    SearchResult.fromCache res = true.
Proof.
  apply (search_fromCache_after_rebuild localeCompare_root "registries" [] "alpha"
           plain stale_world); try reflexivity.
  repeat constructor.
Defined.

Example search_stale_world :
  snd (search localeCompare_root "registries" [] "alpha" plain stale_world) =
  Ok (SearchResult.mk
        [Scored.mk (Skill.stamp "core" (named "alpha")) 100] 12 true).
Proof. reflexivity. Qed.

(** With the [remoteUrls] of the source nothing is fetched: the builds above
    are those of the program as shipped. *)
Example no_remote_configured net JSON_parse now fuel :
  fetchRemotes net JSON_parse now fuel remoteUrls = Some [].
Proof. reflexivity. Qed.

(** * Further properties of the code *)

(** ** Tokens and scores *)

Section TokenFacts.

Lemma split_go_no_space b piece s :
  all_units (fun c => Js.is_space c = false) piece →
  Forall (all_units (fun c => Js.is_space c = false)) (Js.split_go b piece s).
Proof.
  revert b piece. induction s as [|c s IH]; intros b piece Hp; simpl.
  - by constructor.
  - destruct (Js.is_space c) eqn:E.
    + destruct b; [by apply IH |]. constructor; [done | by apply IH].
    + apply IH. apply all_units_app. by repeat split.
Qed.

Lemma toLowerCase_idem s : Js.toLowerCase (Js.toLowerCase s) = Js.toLowerCase s.
Proof. apply toLowerCase_fixed, toLowerCase_units. Qed.

Lemma map_toLowerCase_idem l :
  map Js.toLowerCase (map Js.toLowerCase l) = map Js.toLowerCase l.
Proof. rewrite map_map. apply map_ext. intros. apply toLowerCase_idem. Qed.

(** The score for terms of any case: the loop adds the points of each
    lower-cased term. *)
Lemma scoreSkill_points skill terms :
  scoreSkill skill terms =
  total (map (term_points
                (Js.toLowerCase (Skill.name skill))
                (map Js.toLowerCase (default [] (Skill.tags skill)))
                (Js.toLowerCase (default EmptyString (Skill.description skill))))
             (map Js.toLowerCase terms)).
Proof.
  rewrite <- scoreSkill_total.
  - unfold scoreSkill. by rewrite map_toLowerCase_idem.
  - apply Forall_forall. intros t Ht. apply list_elem_of_fmap in Ht as (t' & -> & _).
    apply toLowerCase_idem.
Qed.

Lemma term_points_range name tags desc t : 0 <= term_points name tags desc t <= 140.
Proof.
  unfold term_points.
  destruct (String.eqb name t), (Js.startsWith name t), (Js.includes name t),
    (Js.array_includes tags t), (Js.some (fun g => Js.startsWith g t) tags),
    (Js.includes desc t); lia.
Qed.

(** A term matches a record: it occurs in the name or in the description,
    or a tag starts with it (name, tags and description in lower case). *)
Definition matches (skill : Skill.t) (t : string) : Prop :=
  IsSubstring t (Js.toLowerCase (Skill.name skill)) ∨
  (∃ g, g ∈ map Js.toLowerCase (default [] (Skill.tags skill)) ∧ IsPrefix t g) ∨
  IsSubstring t (Js.toLowerCase (default EmptyString (Skill.description skill))).

Lemma append_empty s : s +:+ EmptyString = s.
Proof.
  induction s as [|a s IH]; [reflexivity |].
  change (String a (s +:+ EmptyString) = String a s). by rewrite IH.
Qed.

Lemma IsPrefix_refl t : IsPrefix t t.
Proof. exists EmptyString. by rewrite append_empty. Qed.

Lemma IsPrefix_IsSubstring t s : IsPrefix t s → IsSubstring t s.
Proof. intros [r ->]. by exists EmptyString, r. Qed.

Lemma term_points_positive skill t :
  0 < term_points
        (Js.toLowerCase (Skill.name skill))
        (map Js.toLowerCase (default [] (Skill.tags skill)))
        (Js.toLowerCase (default EmptyString (Skill.description skill))) t
  ↔ matches skill t.
Proof.
  unfold term_points, matches.
  set (nm := Js.toLowerCase (Skill.name skill)).
  set (tg := map Js.toLowerCase (default [] (Skill.tags skill))).
  set (ds := Js.toLowerCase (default EmptyString (Skill.description skill))).
  rewrite <- !includes_spec, <- some_startsWith_spec.
  assert (String.eqb nm t = true → Js.includes nm t = true) as H1.
  { intros H. apply String.eqb_eq in H as ->. apply includes_spec.
    apply IsPrefix_IsSubstring, IsPrefix_refl. }
  assert (Js.startsWith nm t = true → Js.includes nm t = true) as H2.
  { intros H. apply includes_spec, IsPrefix_IsSubstring. by apply startsWith_spec. }
  assert (Js.array_includes tg t = true →
          Js.some (fun g => Js.startsWith g t) tg = true) as H3.
  { intros H. apply some_startsWith_spec. exists t.
    split; [by apply array_includes_spec | apply IsPrefix_refl]. }
  destruct (String.eqb nm t), (Js.startsWith nm t), (Js.includes nm t),
    (Js.array_includes tg t), (Js.some (fun g => Js.startsWith g t) tg),
    (Js.includes ds t); simpl; split; intros Hm; try lia; try tauto;
    try (destruct Hm as [Hm | [Hm | Hm]]; discriminate);
    try (specialize (H1 eq_refl); discriminate);
    try (specialize (H2 eq_refl); discriminate);
    try (specialize (H3 eq_refl); discriminate).
Qed.

Lemma total_nonneg pts : Forall (fun p => 0 <= p) pts → 0 <= total pts.
Proof. induction 1; simpl; lia. Qed.

Lemma total_positive pts :
  Forall (fun p => 0 <= p) pts → (0 < total pts ↔ Exists (fun p => 0 < p) pts).
Proof.
  induction 1 as [|p pts Hp Hpts IH]; simpl.
  - split; [lia | by intros H%Exists_nil].
  - rewrite Exists_cons. pose proof (total_nonneg pts Hpts) as Hnn. split.
    + intros Hpos. destruct (decide (0 < p)); [by left | right; apply IH; lia].
    + intros [H' | H']; [lia | apply IH in H'; lia].
Qed.

End TokenFacts.

(** The code units of a string that are no white space, and the pieces of a
    list put end to end. *)
Fixpoint strip_spaces (s : string) : string :=
  match s with
  | EmptyString => EmptyString
  | String c s' => if Js.is_space c then strip_spaces s' else String c (strip_spaces s')
  end.

Definition glue (l : list string) : string := foldr String.append EmptyString l.

Lemma append_assoc a b c : (a +:+ b) +:+ c = a +:+ b +:+ c.
Proof.
  induction a as [|x a IH]; [reflexivity |].
  change (String x ((a +:+ b) +:+ c) = String x (a +:+ b +:+ c)). by rewrite IH.
Qed.

Lemma glue_split_go b piece s :
  glue (Js.split_go b piece s) = piece +:+ strip_spaces s.
Proof.
  revert b piece. induction s as [|c s IH]; intros b piece; simpl.
  - reflexivity.
  - destruct (Js.is_space c).
    + destruct b; [apply IH |]. simpl. by rewrite IH.
    + rewrite IH, append_assoc. reflexivity.
Qed.

Lemma glue_truthy l : glue (List.filter Js.truthy l) = glue l.
Proof. induction l as [|[|c s] l IH]; simpl; [done | done | by rewrite IH]. Qed.

(** X1. Every token of a query is non-empty, in lower case and free of white
    space, and the tokens put end to end are the lower-cased query without
    its white space: tokenizing drops white space and nothing else. *)
Theorem tokenize_shape (query : string) :
  Forall (fun t => t ≠ EmptyString ∧ Js.toLowerCase t = t ∧
                   all_units (fun c => Js.is_space c = false) t)
         (tokenize query) ∧
  glue (tokenize query) = strip_spaces (Js.toLowerCase query).
Proof.
  split.
  - pose proof (tokenize_nonempty query) as H1.
    pose proof (tokenize_lower_case query) as H2.
    assert (Forall (all_units (fun c => Js.is_space c = false)) (tokenize query)) as H3.
    { unfold tokenize, Js.split_ws.
      pose proof (split_go_no_space false EmptyString (Js.toLowerCase query) I) as H.
      apply Forall_forall. intros t Ht. rewrite Forall_forall in H. apply H.
      apply list_elem_of_In. apply list_elem_of_In, filter_In in Ht. tauto. }
    rewrite Forall_forall in *. intros t Ht. auto.
  - unfold tokenize, Js.split_ws. by rewrite glue_truthy, glue_split_go.
Qed.

(** A record with its name, description and tags in lower case. *)
Definition lower_case (skill : Skill.t) : Skill.t :=
  Skill.mk (Js.toLowerCase (Skill.name skill))
           (Js.toLowerCase <$> Skill.description skill)
           (Skill.source skill)
           (map Js.toLowerCase <$> Skill.tags skill)
           (Skill.version skill) (Skill.verified skill) (Skill.registry skill).

(** X2. Scoring and searching ignore case on both sides: lower-casing the
    query, the terms or the record changes neither score nor result. *)
Theorem search_ignores_case :
  (∀ index query limit,
     searchSkills index (Js.toLowerCase query) limit = searchSkills index query limit) ∧
  (∀ skill terms,
     scoreSkill skill (map Js.toLowerCase terms) = scoreSkill skill terms ∧
     scoreSkill (lower_case skill) terms = scoreSkill skill terms).
Proof.
  split.
  - intros index query limit. unfold searchSkills, tokenize.
    by rewrite toLowerCase_idem.
  - intros skill terms. split.
    + by rewrite !scoreSkill_points, map_toLowerCase_idem.
    + rewrite !scoreSkill_points. unfold lower_case. simpl.
      rewrite toLowerCase_idem.
      destruct (Skill.description skill) as [d|], (Skill.tags skill) as [tg|];
        simpl; by rewrite ?toLowerCase_idem, ?map_toLowerCase_idem.
Qed.

Lemma scoreSkill_positive_iff_match_aux skill terms :
  0 < scoreSkill skill terms ↔ ∃ t, t ∈ terms ∧ matches skill (Js.toLowerCase t).
Proof.
  rewrite scoreSkill_points.
  set (pts := term_points _ _ _).
  assert (Forall (fun p => 0 <= p) (map pts (map Js.toLowerCase terms))) as Hnn.
  { apply Forall_forall. intros p Hp. apply list_elem_of_fmap in Hp as (t & -> & _).
    apply term_points_range. }
  rewrite (total_positive _ Hnn), Exists_exists. split.
  - intros (p & Hp & Hpos). apply list_elem_of_fmap in Hp as (t' & -> & Ht').
    apply list_elem_of_fmap in Ht' as (t & -> & Ht). exists t. split; [done |].
    by apply term_points_positive.
  - intros (t & Ht & Hm). exists (pts (Js.toLowerCase t)). split.
    + by apply list_elem_of_fmap_2, list_elem_of_fmap_2.
    + by apply term_points_positive.
Qed.

Lemma scoreSkill_nonneg skill terms : 0 <= scoreSkill skill terms.
Proof.
  rewrite scoreSkill_points. apply total_nonneg, Forall_forall. intros p Hp.
  apply list_elem_of_fmap in Hp as (t & -> & _). apply term_points_range.
Qed.

(** X3. A score is never negative, and it is positive exactly when some
    term matches: it occurs in the name or the description, or a tag starts
    with it. *)
Theorem scoreSkill_positive_iff_match (skill : Skill.t) (terms : list string) :
  0 <= scoreSkill skill terms ∧
  (0 < scoreSkill skill terms ↔
   ∃ t, t ∈ terms ∧ matches skill (Js.toLowerCase t)).
Proof.
  split; [apply scoreSkill_nonneg | apply scoreSkill_positive_iff_match_aux].
Qed.

(** X4. A term earns at most 140 points (100 + 30 + 10), so a score is at
    most 140 times the number of terms. *)
Theorem scoreSkill_at_most (skill : Skill.t) (terms : list string) :
  scoreSkill skill terms <= 140 * Z.of_nat (length terms).
Proof.
  rewrite scoreSkill_points. induction terms as [|t terms IH]; simpl; [done |].
  pose proof (term_points_range
    (Js.toLowerCase (Skill.name skill))
    (map Js.toLowerCase (default [] (Skill.tags skill)))
    (Js.toLowerCase (default EmptyString (Skill.description skill)))
    (Js.toLowerCase t)).
  lia.
Qed.

Lemma total_app a b : total (a ++ b) = total a + total b.
Proof. induction a; simpl; lia. Qed.

(** X5. The score is a sum over the terms: the score of two lists of terms
    together is the sum of their scores, a term given twice counts twice,
    and the order of the terms does not matter. *)
Theorem scoreSkill_additive (skill : Skill.t) :
  (∀ terms terms',
     scoreSkill skill (terms ++ terms') = scoreSkill skill terms + scoreSkill skill terms') ∧
  (∀ t, scoreSkill skill [t; t] = 2 * scoreSkill skill [t]) ∧
  (∀ terms terms', terms ≡ₚ terms' → scoreSkill skill terms = scoreSkill skill terms').
Proof.
  assert (∀ terms terms',
     scoreSkill skill (terms ++ terms') = scoreSkill skill terms + scoreSkill skill terms')
    as Happ.
  { intros. by rewrite !scoreSkill_points, !map_app, total_app. }
  split; [done |]. split.
  - intros t. change [t; t] with ([t] ++ [t]). rewrite Happ. lia.
  - intros terms terms' Hperm. rewrite !scoreSkill_points.
    induction Hperm; simpl; lia.
Qed.

Section SearchMoreFacts.

Lemma ranked_elem index terms r :
  r ∈ ranked index terms ↔
  ∃ s, s ∈ Index.skills index ∧ r = Scored.mk s (scoreSkill s terms) ∧
       0 < scoreSkill s terms.
Proof.
  unfold ranked. rewrite sort_perm, list_elem_of_In, filter_In, <- list_elem_of_In.
  unfold annotate. rewrite list_elem_of_fmap, Z.ltb_lt. split.
  - intros [(s & -> & Hs) Hpos]. by exists s.
  - intros (s & Hs & -> & Hpos). split; [by exists s | done].
Qed.

Lemma ranked_length index terms :
  length (ranked index terms) =
  length (List.filter (fun s => 0 <? scoreSkill s terms) (Index.skills index)).
Proof.
  unfold ranked. rewrite sort_perm. unfold annotate.
  induction (Index.skills index) as [|s l IH]; simpl; [done |].
  destruct (0 <? scoreSkill s terms); simpl; by rewrite IH.
Qed.

Lemma filter_length_le {B} (p : B → bool) l :
  (length (List.filter p l) <= length l)%nat.
Proof. induction l; simpl; [done |]. destruct (p _); simpl; lia. Qed.

Lemma ranked_sorted index terms :
  StronglySorted (fun a b => Scored.score b <= Scored.score a) (ranked index terms).
Proof.
  apply sorted_by_score, sort_sorted; [apply by_score_total | apply by_score_trans].
Qed.

(** What [slice(0, e)] keeps: a number of elements from the front. *)
Definition kept (len e : Z) : nat :=
  Z.to_nat (if e <? 0 then Z.max (len + e) 0 else Z.min e len).

Lemma slice0_kept {B} (l : list B) e :
  Js.slice0 l e = take (kept (Z.of_nat (length l)) e) l.
Proof. reflexivity. Qed.

Lemma StronglySorted_take {B} (R : B → B → Prop) n l :
  StronglySorted R l → StronglySorted R (take n l).
Proof.
  intros H. rewrite <- (take_drop n l) in H. by apply StronglySorted_app_1_l in H.
Qed.

Lemma searchSkills_kept index query limit :
  tokenize query ≠ [] →
  searchSkills (Some index) query limit =
  Ok (take (kept (Z.of_nat (length (ranked index (tokenize query)))) (default 10 limit))
           (ranked index (tokenize query))).
Proof. intros H. rewrite searchSkills_unfold by done. by rewrite slice0_kept. Qed.

End SearchMoreFacts.

(** X6. With a limit that is at least the number of records of the index,
    a search on a query with a token returns exactly the records that match
    one of the tokens, each with its score. *)
Theorem searchSkills_returns_the_matches (index : Index.t) (query : string)
    (limit : Z) (results : list Scored.t) :
  tokenize query ≠ [] →
  Z.of_nat (length (Index.skills index)) <= limit →
  searchSkills (Some index) query (Some limit) = Ok results →
  ∀ r, r ∈ results ↔
       ∃ s, s ∈ Index.skills index ∧
            r = Scored.mk s (scoreSkill s (tokenize query)) ∧
            ∃ t, t ∈ tokenize query ∧ matches s t.
Proof.
  intros Hne Hlimit Hsearch r.
  rewrite searchSkills_kept in Hsearch by done. injection Hsearch as <-.
  rewrite take_ge.
  2:{ unfold kept. simpl. pose proof (ranked_length index (tokenize query)) as Hl.
      pose proof (filter_length_le (fun s => 0 <? scoreSkill s (tokenize query))
                    (Index.skills index)).
      destruct (limit <? 0) eqn:E; lia. }
  rewrite ranked_elem. split.
  - intros (s & Hs & -> & Hpos). exists s. split; [done |]. split; [done |].
    apply scoreSkill_positive_iff_match_aux in Hpos as (t & Ht & Hm).
    exists t. split; [done |].
    pose proof (tokenize_lower_case query) as Hlow. rewrite Forall_forall in Hlow.
    by rewrite <- (Hlow t Ht).
  - intros (s & Hs & -> & t & Ht & Hm). exists s. split; [done |]. split; [done |].
    apply scoreSkill_positive_iff_match_aux. exists t. split; [done |].
    pose proof (tokenize_lower_case query) as Hlow. rewrite Forall_forall in Hlow.
    by rewrite (Hlow t Ht).
Qed.

Lemma searchSkills_returns_the_matches_witness :
  Scored.mk (named "docker") 60
    ∈ [Scored.mk (named "dock") 100; Scored.mk (named "docker") 60;
       Scored.mk (named "docker-compose") 60] ↔
  ∃ s, s ∈ Index.skills three_docks ∧
       Scored.mk (named "docker") 60 = Scored.mk s (scoreSkill s (tokenize "dock")) ∧
       ∃ t, t ∈ tokenize "dock" ∧ matches s t.
Proof.
  apply (searchSkills_returns_the_matches three_docks "dock" 3); [| | reflexivity].
  - vm_compute. discriminate.
  - vm_compute. discriminate.
Defined.

(** X7. Whatever the limit, negative ones included, what a search returns
    is in descending order of score, holds records of the index only, each
    with its own positive score, and is no longer than the index.  A
    negative limit [-k] leaves out the [k] lowest-ranked matches instead of
    bounding the result. *)
Theorem searchSkills_any_limit (index : Index.t) (query : string)
    (limit : option Z) (results : list Scored.t) :
  searchSkills (Some index) query limit = Ok results →
  Forall (fun r => Scored.skill r ∈ Index.skills index ∧
                   Scored.score r = scoreSkill (Scored.skill r) (tokenize query) ∧
                   0 < Scored.score r) results ∧
  StronglySorted (fun a b => Scored.score b <= Scored.score a) results ∧
  (length results <= length (Index.skills index))%nat ∧
  (tokenize query ≠ [] → default 10 limit < 0 →
   Z.of_nat (length results) =
   Z.max (Z.of_nat (length (List.filter (fun s => 0 <? scoreSkill s (tokenize query))
                                        (Index.skills index)))
          + default 10 limit) 0).
Proof.
  intros Hsearch. destruct (tokenize query) as [|t0 terms] eqn:Htok.
  { unfold searchSkills in Hsearch. rewrite Htok in Hsearch. injection Hsearch as <-.
    repeat split; [constructor | constructor | simpl; lia | done]. }
  rewrite <- Htok in *.
  assert (tokenize query ≠ []) as Hne by (rewrite Htok; done).
  rewrite searchSkills_kept in Hsearch by done. injection Hsearch as <-.
  set (all := ranked index (tokenize query)).
  set (n := kept (Z.of_nat (length all)) (default 10 limit)).
  split; [| split; [| split]].
  - apply Forall_forall. intros r Hr. apply elem_of_take in Hr as (i & Hr & _).
    apply list_elem_of_lookup_2 in Hr. apply ranked_elem in Hr as (s & Hs & -> & Hpos).
    done.
  - apply StronglySorted_take, ranked_sorted.
  - rewrite length_take. unfold all. rewrite ranked_length.
    pose proof (filter_length_le (fun s => 0 <? scoreSkill s (tokenize query))
                  (Index.skills index)).
    lia.
  - intros _ Hneg. rewrite length_take. unfold n, kept, all.
    rewrite <- ranked_length. apply Z.ltb_lt in Hneg. rewrite Hneg. lia.
Qed.

Lemma searchSkills_any_limit_witness :
  Forall (fun r => Scored.skill r ∈ Index.skills three_docks ∧
                   Scored.score r = scoreSkill (Scored.skill r) (tokenize "dock") ∧
                   0 < Scored.score r)
         [Scored.mk (named "dock") 100] ∧
  StronglySorted (fun a b => Scored.score b <= Scored.score a)
                 [Scored.mk (named "dock") 100] ∧
  (length [Scored.mk (named "dock") 100] <= length (Index.skills three_docks))%nat ∧
  (tokenize "dock" ≠ [] → default 10 (Some (-2)) < 0 →
   Z.of_nat (length [Scored.mk (named "dock") 100]) =
   Z.max (Z.of_nat (length (List.filter (fun s => 0 <? scoreSkill s (tokenize "dock"))
                                        (Index.skills three_docks)))
          + default 10 (Some (-2))) 0).
Proof.
  apply (searchSkills_any_limit three_docks "dock" (Some (-2))). reflexivity.
Defined.

(** ** Loading the local registries *)

Section LoaderFacts.

(** The files [loadLocalRegistries] reads, the registry name it gives a
    file, and the records a file contributes. *)
Definition is_registry_file (file : string) : bool :=
  Js.endsWith file ".json" && negb (String.eqb file "schema.json").

Definition registry_name (file : string) : string :=
  Js.replace file ".json" EmptyString.

Definition file_skills (f : string * Exc Registry.t) : list Skill.t :=
  match snd f with
  | Ok content =>
      map (Skill.stamp (registry_name (fst f))) (default [] (Registry.skills content))
  | Throw _ => []
  end.

Lemma push_all {B C} (g : B → C) (l : list B) (acc : list C) :
  fold_left (fun acc x => acc ++ [g x]) l acc = acc ++ map g l.
Proof.
  revert acc. induction l as [|x l IH]; intros acc; simpl.
  - by rewrite app_nil_r.
  - by rewrite IH, <- app_assoc.
Qed.

Lemma fold_left_same {B C} (f g : C → B → C) (l : list B) (acc : C) :
  (∀ a x, f a x = g a x) → fold_left f l acc = fold_left g l acc.
Proof.
  intros H. revert acc. induction l as [|x l IH]; intros acc; simpl; [done |].
  by rewrite H, IH.
Qed.

(** One turn of the loop over the files. *)
Definition load_file (REGISTRIES_DIR : string) (now : Z) (local : Loaded.t)
    (f : string * Exc Registry.t) : Loaded.t :=
  match snd f with
  | Throw _ => local
  | Ok content =>
      Loaded.mk
        (<[registry_name (fst f) :=
             RegistryInfo.mk ("local:" +:+ path_join REGISTRIES_DIR (fst f)) now]>
           (Loaded.registries local))
        (Loaded.skills local ++ file_skills f)
  end.

Lemma loadLocalRegistries_fold D entries now :
  loadLocalRegistries D (Some entries) now =
  fold_left (load_file D now)
            (List.filter (fun f => is_registry_file (fst f)) entries)
            (Loaded.mk ∅ []).
Proof.
  unfold loadLocalRegistries. apply fold_left_same. intros local [file content].
  unfold load_file, file_skills. simpl. destruct content as [content|e]; [| done].
  f_equal. destruct (Registry.skills content) as [skills|]; simpl.
  - apply push_all.
  - by rewrite app_nil_r.
Qed.

Lemma load_files_skills D now files acc :
  Loaded.skills (fold_left (load_file D now) files acc) =
  Loaded.skills acc ++ flat_map file_skills files.
Proof.
  revert acc. induction files as [|f files IH]; intros acc; simpl.
  - by rewrite app_nil_r.
  - rewrite IH. unfold load_file, file_skills.
    destruct (snd f); simpl; [by rewrite <- app_assoc | done].
Qed.

Lemma loadLocalRegistries_skills D entries now :
  Loaded.skills (loadLocalRegistries D (Some entries) now) =
  flat_map file_skills (List.filter (fun f => is_registry_file (fst f)) entries).
Proof. by rewrite loadLocalRegistries_fold, load_files_skills. Qed.


End LoaderFacts.

(** X8. A record is loaded from the local registries exactly when it is a
    record of the [skills] array of a file of the directory that could be
    read and parsed, whose name ends in ".json" and is not "schema.json";
    it is then stamped with that file's registry name. *)
Theorem loaded_records_origin (REGISTRIES_DIR : string)
    (entries : list (string * Exc Registry.t)) (now : Z) (s : Skill.t) :
  s ∈ Loaded.skills (loadLocalRegistries REGISTRIES_DIR (Some entries) now) ↔
  ∃ file content skills raw,
    (file, Ok content) ∈ entries ∧
    Js.endsWith file ".json" = true ∧ file ≠ "schema.json"%string ∧
    Registry.skills content = Some skills ∧ raw ∈ skills ∧
    s = Skill.stamp (Js.replace file ".json" EmptyString) raw.
Proof.
  rewrite loadLocalRegistries_skills, list_elem_of_In, in_flat_map. split.
  - intros ([file c] & Hf & Hs). apply filter_In in Hf as [Hf Hjson]. simpl in Hjson.
    apply andb_true_iff in Hjson as [Hjson Hschema].
    apply negb_true_iff, String.eqb_neq in Hschema.
    unfold file_skills in Hs. simpl in Hs. destruct c as [content|e]; [| done].
    destruct (Registry.skills content) as [skills|] eqn:Hskills; [| done].
    simpl in Hs. apply in_map_iff in Hs as (raw & <- & Hraw).
    exists file, content, skills, raw. rewrite list_elem_of_In.
    repeat split; try done. by apply list_elem_of_In.
  - intros (file & content & skills & raw & Hf & Hjson & Hschema & Hskills & Hraw & ->).
    exists (file, Ok content). split.
    + apply filter_In. split; [by apply list_elem_of_In |]. simpl.
      unfold is_registry_file. rewrite Hjson. simpl.
      by apply negb_true_iff, String.eqb_neq.
    + unfold file_skills. simpl. rewrite Hskills. simpl. apply in_map.
      by apply list_elem_of_In.
Qed.

(** X9. Files that are not registry files and files that cannot be read or
    parsed have no effect on what is loaded: the result, registries and
    skills, is that of the directory without them. *)
Theorem loadLocalRegistries_skips_failures (REGISTRIES_DIR : string)
    (entries : list (string * Exc Registry.t)) (now : Z) :
  loadLocalRegistries REGISTRIES_DIR (Some entries) now =
  loadLocalRegistries REGISTRIES_DIR
    (Some (List.filter
             (fun f => is_registry_file (fst f) &&
                       match snd f with Ok _ => true | Throw _ => false end)
             entries)) now.
Proof.
  rewrite !loadLocalRegistries_fold. generalize (Loaded.mk ∅ []).
  induction entries as [|[file c] entries IH]; intros acc; simpl; [done |].
  destruct (is_registry_file file) eqn:Hjson; simpl; [| apply IH].
  destruct c as [content|e]; simpl.
  - rewrite Hjson. simpl. apply IH.
  - unfold load_file. simpl. apply IH.
Qed.


Section ReplaceFacts.

Lemma append_cons c s t : String c s +:+ t = String c (s +:+ t).
Proof. reflexivity. Qed.

Lemma startsWith_cons c d s t :
  Js.startsWith (String d s) (String c t) = Ascii.eqb d c && Js.startsWith s t.
Proof. reflexivity. Qed.

Lemma replace_unfold s pat by_ :
  Js.replace s pat by_ =
  if Js.startsWith s pat
  then by_ +:+ String.substring (String.length pat)
                 (String.length s - String.length pat) s
  else match s with
       | EmptyString => EmptyString
       | String c s' => String c (Js.replace s' pat by_)
       end.
Proof. by destruct s. Qed.

(** No ".json" starts at the front of a string that has its first ".json"
    further on. *)
Lemma json_not_at_start c base rest :
  ¬ IsSubstring ".json" (String c base) →
  Js.startsWith (String c base +:+ ".json" +:+ rest) ".json" = false.
Proof.
  intros Hno. destruct (Js.startsWith _ _) eqn:H; [| done]. exfalso.
  rewrite append_cons in H.
  destruct base as [|c1 [|c2 [|c3 [|c4 more]]]];
    rewrite ?append_cons in H; cbn [String.append] in H;
    rewrite ?startsWith_cons in H; repeat (apply andb_true_iff in H as [? H]);
    repeat match goal with
           | E : Ascii.eqb _ _ = true |- _ => apply Ascii.eqb_eq in E; subst
           end; try discriminate.
  apply Hno. exists EmptyString, more. reflexivity.
Qed.

Lemma substring_all s : String.substring 0 (String.length s) s = s.
Proof. induction s as [|c s IH]; simpl; [done | by rewrite IH]. Qed.

Lemma substring_after a b :
  String.substring (String.length a)
    (String.length (a +:+ b) - String.length a) (a +:+ b) = b.
Proof.
  induction a as [|c a IH].
  - change (EmptyString +:+ b) with b. simpl String.length.
    rewrite Nat.sub_0_r. apply substring_all.
  - rewrite append_cons. simpl. apply IH.
Qed.

Lemma replace_at_start pat rest by_ :
  Js.replace (pat +:+ rest) pat by_ = by_ +:+ rest.
Proof.
  rewrite replace_unfold.
  assert (Js.startsWith (pat +:+ rest) pat = true) as ->
    by (apply startsWith_spec; by exists rest).
  by rewrite substring_after.
Qed.

End ReplaceFacts.

(** X11. The registry name of a file is its name without the first ".json":
    whatever stands before the first ".json" and whatever follows it, put
    together.  So "core.json" gives "core", and "core.json.json" gives
    "core.json". *)
Theorem registry_name_drops_first_json (pre rest : string) :
  ¬ IsSubstring ".json" pre →
  Js.replace (pre +:+ ".json" +:+ rest) ".json" EmptyString = pre +:+ rest.
Proof.
  induction pre as [|c pre IH]; intros Hno.
  - change (EmptyString +:+ ".json" +:+ rest) with (".json" +:+ rest).
    apply replace_at_start.
  - rewrite replace_unfold, json_not_at_start by done.
    rewrite !append_cons. f_equal. apply IH.
    intros (l & r & ->). apply Hno. by exists (String c l), r.
Qed.

Lemma registry_name_drops_first_json_witness :
  Js.replace ("core" +:+ ".json" +:+ ".json") ".json" EmptyString = "core" +:+ ".json".
Proof.
  apply (registry_name_drops_first_json "core" ".json").
  intros H. apply includes_spec in H. discriminate.
Defined.


(** ** Merging and fetching *)

Section RemoteFacts.

Lemma mergeRemotes_registries local remotes n :
  n ∈ dom (Loaded.registries (mergeRemotes local remotes)) ↔
  n ∈ dom (Loaded.registries local) ∨ ∃ remote, (n, Some remote) ∈ remotes.
Proof.
  revert local. induction remotes as [|[name remote] remotes IH]; intros local.
  - split; [by left |]. intros [H | (r & H)]; [done | by apply elem_of_nil in H].
  - rewrite mergeRemotes_cons, IH. destruct remote as [remote|]; simpl.
    + rewrite dom_insert_L, elem_of_union, elem_of_singleton. split.
      * intros [[-> | H] | (r & H)].
        -- right. exists remote. left.
        -- by left.
        -- right. exists r. by right.
      * intros [H | (r & H)]; [left; by right |].
        apply elem_of_cons in H as [H | H].
        -- injection H as -> ->. left. by left.
        -- right. by exists r.
    + split.
      * intros [H | (r & H)]; [by left |]. right. exists r. by right.
      * intros [H | (r & H)]; [by left |].
        apply elem_of_cons in H as [H | H]; [discriminate H |]. right. by exists r.
Qed.

Lemma mergeRemotes_failed local remotes :
  Forall (fun r => snd r = None) remotes → mergeRemotes local remotes = local.
Proof.
  induction 1 as [|[name remote] remotes Hr _ IH]; [done |].
  simpl in Hr. subst remote. by rewrite mergeRemotes_cons.
Qed.

Lemma loadLocalRegistries_skills_stamped D entries now s :
  s ∈ Loaded.skills (loadLocalRegistries D (Some entries) now) →
  is_Some (Skill.registry s).
Proof.
  rewrite loadLocalRegistries_skills, list_elem_of_In, in_flat_map.
  intros (f & _ & Hs). unfold file_skills in Hs. destruct (snd f); [| done].
  apply in_map_iff in Hs as (raw & <- & _). by eexists.
Qed.

Lemma fetchRemoteRegistry_result_aux net JSON_parse now fuel url name :
  match fetchRemoteRegistry net JSON_parse now fuel url name with
  | Some (Some remote) =>
      Forall (fun s => Skill.registry s = Some name) (Remote.skills remote)
  | _ => True
  end.
Proof.
  unfold fetchRemoteRegistry. destruct (fetchUrl net fuel url) as [[content|]|]; try done.
  destruct (JSON_parse content); [| done]. simpl.
  apply Forall_forall. intros s Hs. by apply list_elem_of_fmap in Hs as (raw & -> & _).
Qed.

End RemoteFacts.

(** X12. After the merge the registries map has an entry for each local
    registry and for each remote registry that was fetched, whether or not
    any of its records was added, and for no other; remote registries
    whose fetch failed change nothing. *)
Theorem merged_registries (local : Loaded.t) (remotes : list (string * option Remote.t)) :
  (∀ n, n ∈ dom (Loaded.registries (mergeRemotes local remotes)) ↔
        n ∈ dom (Loaded.registries local) ∨ ∃ remote, (n, Some remote) ∈ remotes) ∧
  (Forall (fun r => snd r = None) remotes → mergeRemotes local remotes = local).
Proof.
  split; [intros n; apply mergeRemotes_registries | apply mergeRemotes_failed].
Qed.



Lemma fetchRemotes_stamped net JSON_parse now fuel urls remotes :
  fetchRemotes net JSON_parse now fuel urls = Some remotes →
  ∀ name remote, (name, Some remote) ∈ remotes →
                 Forall (fun s => Skill.registry s = Some name) (Remote.skills remote).
Proof.
  unfold fetchRemotes. intros H name remote Hin. apply mapM_Some_1 in H.
  apply list_elem_of_lookup in Hin as [i Hi].
  destruct (Forall2_lookup_r _ _ _ _ _ H Hi) as ([n url] & _ & Hf).
  simpl in Hf.
  pose proof (fetchRemoteRegistry_result_aux net JSON_parse now fuel url n) as Hr.
  destruct (fetchRemoteRegistry net JSON_parse now fuel url n) as [r|]; [| done].
  simpl in Hf. injection Hf as -> ->. exact Hr.
Qed.

(** A record carries the name of a registry. *)
Definition stamped (s : Skill.t) : Prop := is_Some (Skill.registry s).

(** X15. Every record of an index built from the local registries and the
    registries fetched for a list of URLs carries the name of a registry. *)
Theorem built_index_records_stamped (localeCompare : string → string → Z)
    (REGISTRIES_DIR : string) (dir : option (list (string * Exc Registry.t)))
    (net : string → Http.Response) (JSON_parse : string → Exc Registry.t)
    (fuel : nat) (urls : list (string * string))
    (remotes : list (string * option Remote.t)) (now : Z) :
  fetchRemotes net JSON_parse now fuel urls = Some remotes →
  Forall stamped
    (Index.skills
       (makeIndex localeCompare (loadLocalRegistries REGISTRIES_DIR dir now) remotes now)).
Proof.
  intros Hfetch. pose proof (fetchRemotes_stamped _ _ _ _ _ _ Hfetch) as Hremotes.
  apply Forall_forall. intros s Hs. simpl in Hs.
  rewrite sort_perm in Hs. apply mergeRemotes_origin in Hs as [Hs | Hs].
  - destruct dir as [entries|]; [| by apply elem_of_nil in Hs].
    by apply loadLocalRegistries_skills_stamped in Hs.
  - destruct Hs as (i & name & remote & Hi & Hs & _).
    apply list_elem_of_lookup_2 in Hi. specialize (Hremotes _ _ Hi).
    rewrite Forall_forall in Hremotes. unfold stamped. by rewrite (Hremotes s Hs).
Qed.

(** A parser for examples: every content is a registry of one record. *)
Definition parse_one (content : string) : Exc Registry.t :=
  Ok (Registry.mk (Some [named content])).

Lemma built_index_records_stamped_witness :
  Forall stamped
    (Index.skills
       (makeIndex localeCompare_root
          (loadLocalRegistries "registries" two_locals 7)
          [("community"%string,
            Some (Remote.mk (RegistryInfo.mk "abc" 7)
                    [Skill.stamp "community" (named "{}")]))] 7)).
Proof.
  apply (built_index_records_stamped localeCompare_root "registries" two_locals
           redirect_countdown parse_one 4 [("community", "abc")]%string).
  reflexivity.
Defined.

(** ** Builds and the cache *)

Section BuildFacts.
Variable localeCompare : string → string → Z.
Variable REGISTRIES_DIR : string.
Variable remotes : list (string * option Remote.t).

Lemma is_fresh_window index now later :
  Index.updated_at index = Some now →
  is_fresh (Cache.Object index) (now + later) = bool_decide (later < TTL_MS).
Proof.
  intros H. simpl. rewrite H. apply bool_decide_ext. lia.
Qed.

Lemma env_step_quiet w :
  undisturbed (World.agenda w) → World.index_file (env_step w) = World.index_file w.
Proof. intros H. by destruct (env_step_undisturbed w H). Qed.

(** X16. A forced build with a cache directory that can be written saves
    what it returns: loading the cache afterwards gives that very index,
    stamped with the schema version and the time of the build, and the
    cache then counts as fresh for 24 hours (86 400 000 ms) and no longer. *)
Theorem build_then_load (w : World.t) :
  World.index_dir_writable w = true →
  ∃ w' index,
    buildIndex localeCompare REGISTRIES_DIR remotes true w = (w', Ok (Some index)) ∧
    loadExistingIndex_at (World.index_file w') = Ok (Some index) ∧
    Index.version index = INDEX_VERSION ∧
    Index.updated_at index = Some (World.clock w') ∧
    ∀ later,
      isIndexFresh_at (World.index_file w') (World.clock w' + later)
      = Ok (bool_decide (later < 24 * 60 * 60 * 1000)).
Proof.
  intros Hw. rewrite buildIndex_forced by done. unfold build.
  eexists _, _. split; [reflexivity |]. simpl. repeat split.
  intros later. rewrite isIndexFresh_at_is_fresh.
  f_equal. by apply is_fresh_window.
Qed.

(** X17. An unforced build that finds the cache fresh reads no registry and
    writes nothing, whether or not the cache directory can be written: it
    returns the cached index. *)
Theorem buildIndex_skips_when_fresh (w : World.t) :
  undisturbed (World.agenda w) →
  observes_fresh w true →
  ∃ w' index,
    buildIndex localeCompare REGISTRIES_DIR remotes false w = (w', Ok (Some index)) ∧
    reused w w' index.
Proof.
  intros Hu Hfresh. apply observes_fresh_spec in Hfresh.
  destruct (env_step_undisturbed w Hu) as [Hf1 Hu1].
  destruct (env_step_undisturbed _ Hu1) as [Hf2 Hu2].
  destruct (is_fresh_object _ _ Hfresh) as [index Hindex].
  exists (env_step (env_step w)), index. split.
  - unfold buildIndex, mbind, M_bind. simpl. rewrite isIndexFresh_at_is_fresh, Hfresh.
    rewrite loadExistingIndex_run. by rewrite Hf2, Hindex.
  - unfold reused. rewrite Hf2, Hf1, !env_step_written. by rewrite <- Hf1.
Qed.

(** X18. When the cache directory cannot be written, a build that is not
    skipped throws, and so does the search that asked for it; the cache is
    left as it was. *)
Theorem write_failure_propagates (query : string) (options : Options.t) (w : World.t) :
  World.index_dir_writable w = false →
  undisturbed (World.agenda w) →
  (∃ w', buildIndex localeCompare REGISTRIES_DIR remotes true w = (w', Throw IOError) ∧
         World.index_file w' = World.index_file w ∧
         World.written w' = World.written w) ∧
  (Options.rebuild options || Options.online options = true ∨ observes_fresh w false →
   ∃ w', search localeCompare REGISTRIES_DIR remotes query options w = (w', Throw IOError) ∧
         World.index_file w' = World.index_file w ∧
         World.written w' = World.written w).
Proof.
  intros Hw Hu.
  destruct (env_step_undisturbed w Hu) as [Hf1 Hu1].
  destruct (env_step_undisturbed _ Hu1) as [Hf2 Hu2].
  destruct (env_step_undisturbed _ Hu2) as [Hf3 Hu3].
  assert (∀ v, World.index_dir_writable v = false →
            buildIndex localeCompare REGISTRIES_DIR remotes true v
            = (env_step v, Throw IOError)) as Hforced.
  { intros v Hv. unfold buildIndex, mbind, M_bind, mret, M_ret, readLocalRegistries,
      Date_now, writeIndex. simpl. by rewrite env_step_writable, Hv. }
  split.
  - exists (env_step w). by rewrite Hforced, env_step_written.
  - intros Hneed. unfold search.
    rewrite (bind_ok Date_now _ w w (World.clock w)) by done.
    destruct (Options.rebuild options || Options.online options) eqn:Hforce.
    + rewrite (bind_ok (mret true) _ w w true) by done.
      exists (env_step w). split; [| by rewrite env_step_written].
      unfold mbind at 1, M_bind at 1. by rewrite Hforced.
    + destruct Hneed as [? | Hstale]; [done |].
      apply observes_fresh_spec in Hstale.
      rewrite (bind_ok _ _ _ _ _ (stale_check_run w)), Hstale. cbn [negb].
      exists (env_step (env_step (env_step w))).
      split; [| by rewrite Hf3, Hf2, Hf1, !env_step_written].
      unfold mbind at 1, M_bind at 1.
      assert (buildIndex localeCompare REGISTRIES_DIR remotes false (env_step w)
              = (env_step (env_step (env_step w)), Throw IOError)) as ->; [| done].
      unfold buildIndex, mbind, M_bind. simpl.
      rewrite isIndexFresh_at_is_fresh, Hf2.
      pose proof (env_step_clock (env_step w)) as [Hc _].
      rewrite (is_fresh_later _ _ _ Hc Hstale).
      unfold mret, M_ret, readLocalRegistries, Date_now, writeIndex. simpl.
      by rewrite !env_step_writable, Hw.
Qed.

(** The run of a search that finds the cache stale, step by step. *)
Lemma search_stale_run query options w :
  Options.rebuild options = false →
  Options.online options = false →
  World.index_dir_writable w = true →
  undisturbed (World.agenda w) →
  observes_fresh w false →
  let w3 := env_step (env_step (env_step w)) in
  let index := rebuilt_from localeCompare REGISTRIES_DIR remotes w3 in
  ∃ results,
    searchSkills (Some index) query (Options.limit options) = Ok results ∧
    search localeCompare REGISTRIES_DIR remotes query options w =
    (env_step (saved w3 index),
     Ok (SearchResult.mk results (World.clock w3 - World.clock w)
           (is_fresh (World.index_file (env_step (saved w3 index)))
                     (World.clock (env_step (saved w3 index)))))).
Proof.
  intros Hr Ho Hw Hu Hstale w3 index. apply observes_fresh_spec in Hstale.
  destruct (env_step_undisturbed w Hu) as [Hf1 Hu1].
  destruct (env_step_undisturbed _ Hu1) as [Hf2 Hu2].
  pose proof (env_step_clock (env_step w)) as [Hc2 _].
  destruct (search_tail query (Options.limit options) (World.clock w) index (saved w3 index))
    as (results & Hres & Htail).
  exists results. split; [done |].
  unfold search. rewrite Hr, Ho. cbn [orb andb negb].
  rewrite (bind_ok Date_now _ w w (World.clock w)) by done.
  rewrite (bind_ok _ _ _ _ _ (stale_check_run w)), Hstale. cbn [negb].
  assert (buildIndex localeCompare REGISTRIES_DIR remotes false (env_step w) =
          (saved w3 index, Ok (Some index))) as Hbuild.
  { rewrite buildIndex_unforced by (by rewrite env_step_writable).
    by rewrite Hf2, (is_fresh_later _ _ _ Hc2 Hstale). }
  rewrite (bind_ok _ _ _ _ _ Hbuild). exact Htail.
Qed.

(** The run of a search that finds the cache fresh. *)
Lemma search_fresh_run query options w index :
  Options.rebuild options = false →
  Options.online options = false →
  undisturbed (World.agenda w) →
  World.index_file w = Cache.Object index →
  is_fresh (Cache.Object index) (World.clock (env_step w)) = true →
  let w2 := env_step (env_step w) in
  ∃ results,
    searchSkills (Some index) query (Options.limit options) = Ok results ∧
    search localeCompare REGISTRIES_DIR remotes query options w =
    (env_step w2,
     Ok (SearchResult.mk results (World.clock w2 - World.clock w)
           (is_fresh (Cache.Object index) (World.clock (env_step w2))))).
Proof.
  intros Hr Ho Hu Hindex Hfresh w2.
  destruct (env_step_undisturbed w Hu) as [Hf1 Hu1].
  destruct (env_step_undisturbed _ Hu1) as [Hf2 Hu2].
  destruct (env_step_undisturbed _ Hu2) as [Hf3 Hu3].
  destruct (search_tail query (Options.limit options) (World.clock w) index w2)
    as (results & Hres & Htail).
  exists results. split; [done |].
  unfold search. rewrite Hr, Ho. cbn [orb andb negb].
  rewrite (bind_ok Date_now _ w w (World.clock w)) by done.
  rewrite (bind_ok _ _ _ _ _ (stale_check_run w)), Hf1, Hindex, Hfresh. cbn [negb].
  assert ((loadExistingIndex
           ≫= λ index : option Index.t,
                match index with
                | Some _ => mret index
                | None => buildIndex localeCompare REGISTRIES_DIR remotes false
                end) (env_step w) = (w2, Ok (Some index))) as Hload.
  { rewrite (bind_ok _ _ _ _ _ (loadExistingIndex_run (env_step w))).
    unfold w2. by rewrite Hf2, Hf1, Hindex. }
  rewrite (bind_ok _ _ _ _ _ Hload), Htail. unfold w2.
  by rewrite Hf3, Hf2, Hf1, Hindex.
Qed.

(** X19. After a search that found the cache stale and rebuilt it, a second
    search uses the index the first one saved: it writes nothing, reports
    [fromCache], and on the same query and limit returns the same results.
    Both calls together are taken to last less than the time to live, with
    no other process touching the cache. *)
Theorem second_search_uses_cache (query : string) (options : Options.t) (w : World.t) :
  Options.rebuild options = false →
  Options.online options = false →
  World.index_dir_writable w = true →
  undisturbed (World.agenda w) →
  duration (World.agenda w) < TTL_MS →
  observes_fresh w false →
  ∃ w1 res1 w2 res2,
    search localeCompare REGISTRIES_DIR remotes query options w = (w1, Ok res1) ∧
    search localeCompare REGISTRIES_DIR remotes query options w1 = (w2, Ok res2) ∧
    World.written w2 = World.written w1 ∧
    World.index_file w2 = World.index_file w1 ∧
    SearchResult.results res2 = SearchResult.results res1 ∧
    SearchResult.fromCache res2 = true.
Proof.
  intros Hr Ho Hw Hu Hd Hstale.
  destruct (search_stale_run query options w Hr Ho Hw Hu Hstale)
    as (results & Hres & Hrun1).
  set (w3 := env_step (env_step (env_step w))) in *.
  set (index := rebuilt_from localeCompare REGISTRIES_DIR remotes w3) in *.
  set (w1 := env_step (saved w3 index)) in *.
  (* the world after the first search *)
  destruct (env_step_undisturbed w Hu) as [_ Hu1].
  destruct (env_step_undisturbed _ Hu1) as [_ Hu2].
  destruct (env_step_undisturbed _ Hu2) as [_ Hu3]. fold w3 in Hu3.
  destruct (env_step_undisturbed (saved w3 index) Hu3) as [Hfile1 Hu4].
  fold w1 in Hfile1, Hu4. simpl in Hfile1.
  destruct (env_step_undisturbed w1 Hu4) as [Hf5 Hu5].
  destruct (env_step_undisturbed _ Hu5) as [Hf6 Hu6].
  destruct (env_step_undisturbed _ Hu6) as [Hf7 Hu7].
  pose proof (env_step_clock w) as [Hc1 Hd1].
  pose proof (env_step_clock (env_step w)) as [Hc2 Hd2].
  pose proof (env_step_clock (env_step (env_step w))) as [Hc3 Hd3]. fold w3 in Hc3, Hd3.
  pose proof (env_step_clock (saved w3 index)) as [Hc4 Hd4]. fold w1 in Hc4, Hd4.
  simpl in Hc4, Hd4.
  pose proof (env_step_clock w1) as [Hc5 Hd5].
  pose proof (env_step_clock (env_step w1)) as [Hc6 Hd6].
  pose proof (env_step_clock (env_step (env_step w1))) as [Hc7 Hd7].
  pose proof (duration_nonneg (World.agenda (env_step w1))) as Hn5.
  pose proof (duration_nonneg (World.agenda (env_step (env_step (env_step w1))))) as Hn7.
  pose proof (duration_nonneg (World.agenda (env_step (env_step w1)))) as Hn6.
  assert (∀ now, now - World.clock w3 < TTL_MS → is_fresh (Cache.Object index) now = true)
    as Hfresh.
  { intros now Hnow. simpl. by apply bool_decide_eq_true. }
  destruct (search_fresh_run query options w1 index Hr Ho Hu4 Hfile1)
    as (results2 & Hres2 & Hrun2).
  { apply Hfresh. lia. }
  eexists _, _, _, _. split; [exact Hrun1 |]. split; [exact Hrun2 |].
  split; [by rewrite !env_step_written |].
  split; [by rewrite Hf7, Hf6, Hf5 |].
  split; [simpl; congruence |].
  simpl. apply Hfresh. lia.
Qed.

End BuildFacts.

Definition locked_world : World.t :=
  World.mk 100000000 cached_dock false shuffled_locals [Event.mk 5 None] [].

Lemma build_then_load_witness :
  ∃ w' index,
    buildIndex localeCompare_root "registries" [] true stale_world = (w', Ok (Some index)) ∧
    loadExistingIndex_at (World.index_file w') = Ok (Some index) ∧
    Index.version index = INDEX_VERSION ∧
    Index.updated_at index = Some (World.clock w') ∧
    ∀ later,
      isIndexFresh_at (World.index_file w') (World.clock w' + later)
      = Ok (bool_decide (later < 24 * 60 * 60 * 1000)).
Proof.
  apply (build_then_load localeCompare_root "registries" [] stale_world). reflexivity.
Defined.

Lemma buildIndex_skips_when_fresh_witness :
  ∃ w' index,
    buildIndex localeCompare_root "registries" [] false fresh_world = (w', Ok (Some index)) ∧
    reused fresh_world w' index.
Proof.
  apply (buildIndex_skips_when_fresh localeCompare_root "registries" [] fresh_world).
  - repeat constructor.
  - reflexivity.
Defined.

Lemma write_failure_propagates_witness :
  (∃ w', buildIndex localeCompare_root "registries" [] true locked_world
         = (w', Throw IOError) ∧
         World.index_file w' = World.index_file locked_world ∧
         World.written w' = World.written locked_world) ∧
  (Options.rebuild plain || Options.online plain = true ∨ observes_fresh locked_world false →
   ∃ w', search localeCompare_root "registries" [] "alpha" plain locked_world
         = (w', Throw IOError) ∧
         World.index_file w' = World.index_file locked_world ∧
         World.written w' = World.written locked_world).
Proof.
  apply (write_failure_propagates localeCompare_root "registries" [] "alpha" plain
           locked_world).
  - reflexivity.
  - repeat constructor.
Defined.

Lemma second_search_uses_cache_witness :
  ∃ w1 res1 w2 res2,
    search localeCompare_root "registries" [] "alpha" plain stale_world = (w1, Ok res1) ∧
    search localeCompare_root "registries" [] "alpha" plain w1 = (w2, Ok res2) ∧
    World.written w2 = World.written w1 ∧
    World.index_file w2 = World.index_file w1 ∧
    SearchResult.results res2 = SearchResult.results res1 ∧
    SearchResult.fromCache res2 = true.
Proof.
  apply (second_search_uses_cache localeCompare_root "registries" [] "alpha" plain
           stale_world); try reflexivity.
  repeat constructor.
Defined.

(** ** The command line of [search-index.js] *)

Section CliFacts.

Lemma indexOf_bounds l x : -1 <= Cli.indexOf l x < Z.of_nat (length l).
Proof.
  induction l as [|y l IH]; simpl; [lia |].
  destruct (String.eqb y x); [lia |].
  destruct (Z.eqb_spec (Cli.indexOf l x) (-1)); lia.
Qed.

Lemma indexOf_absent l x : x ∉ l → Cli.indexOf l x = -1.
Proof.
  induction l as [|y l IH]; intros Hx; simpl; [done |].
  apply not_elem_of_cons in Hx as [Hne Hx].
  destruct (String.eqb_spec y x) as [-> | _]; [done |].
  by rewrite (IH Hx).
Qed.

Lemma indexOf_present l x : x ∈ l → 0 <= Cli.indexOf l x.
Proof.
  induction l as [|y l IH]; intros Hx; simpl.
  - by apply elem_of_nil in Hx.
  - destruct (String.eqb_spec y x) as [-> | Hne]; [lia |].
    apply elem_of_cons in Hx as [-> | Hx]; [done |].
    specialize (IH Hx). destruct (Z.eqb_spec (Cli.indexOf l x) (-1)); lia.
Qed.

Lemma indexOf_app l1 l2 x :
  Cli.indexOf (l1 ++ l2) x =
  if bool_decide (x ∈ l1) then Cli.indexOf l1 x
  else if Cli.indexOf l2 x =? -1 then -1
       else Z.of_nat (length l1) + Cli.indexOf l2 x.
Proof.
  induction l1 as [|y l1 IH].
  - change ([] ++ l2) with l2.
    rewrite bool_decide_eq_false_2 by apply not_elem_of_nil.
    destruct (Z.eqb_spec (Cli.indexOf l2 x) (-1)); simpl length; lia.
  - change ((y :: l1) ++ l2) with (y :: (l1 ++ l2)).
    cbn [Cli.indexOf]. rewrite IH.
    destruct (String.eqb_spec y x) as [-> | Hne].
    + by rewrite bool_decide_eq_true_2 by apply list_elem_of_here.
    + destruct (decide (x ∈ l1)) as [Hin | Hout].
      * rewrite !bool_decide_eq_true_2; [done | by apply list_elem_of_further | done].
      * rewrite !bool_decide_eq_false_2; [| by intros [? | ?]%elem_of_cons | done].
        pose proof (indexOf_bounds l2 x).
        destruct (Z.eqb_spec (Cli.indexOf l2 x) (-1)); [done |].
        destruct (Z.eqb_spec (Z.of_nat (length l1) + Cli.indexOf l2 x) (-1)); [lia |].
        cbn [length]. lia.
Qed.

Lemma indexOf_first pre x post :
  x ∉ pre → Cli.indexOf (pre ++ x :: post) x = Z.of_nat (length pre).
Proof.
  intros Hx. rewrite indexOf_app, bool_decide_eq_false_2 by done.
  simpl. rewrite String.eqb_refl. simpl. lia.
Qed.

(** An argument that is not a flag. *)
Definition word (a : string) : bool := negb (Js.startsWith a "-").

Lemma limit_is_flag : word "--limit" = false.
Proof. reflexivity. Qed.

(** The position of an argument that is no flag, around a [--limit]. *)
Lemma indexOf_around_limit pre v post a :
  "--limit" ∉ pre → word a = true →
  negb (Cli.indexOf (pre ++ "--limit" :: v :: post) a =? Z.of_nat (length pre) + 1) =
  negb (String.eqb a v) || bool_decide (v ∈ pre).
Proof.
  intros Hpre Ha.
  assert (a ≠ "--limit") as Hne by (intros ->; by rewrite limit_is_flag in Ha).
  rewrite indexOf_app. pose proof (indexOf_bounds pre a) as Hb.
  destruct (decide (a ∈ pre)) as [Hin | Hout].
  - rewrite bool_decide_eq_true_2 by done.
    destruct (Z.eqb_spec (Cli.indexOf pre a) (Z.of_nat (length pre) + 1)); [lia |].
    simpl. destruct (String.eqb_spec a v) as [<- | _]; [| done].
    by rewrite bool_decide_eq_true_2.
  - rewrite bool_decide_eq_false_2 by done. cbn [Cli.indexOf].
    destruct (String.eqb_spec "--limit" a) as [E | _]; [by symmetry in E |].
    destruct (String.eqb_spec v a) as [-> | Hva].
    + simpl. rewrite Z.eqb_refl, String.eqb_refl. simpl.
      by rewrite bool_decide_eq_false_2.
    + pose proof (indexOf_bounds post a) as Hp.
      destruct (String.eqb_spec a v) as [E | _]; [by symmetry in E |].
      cbn zeta. cbn [negb orb].
      repeat (match goal with
              | |- context [Z.eqb ?x ?y] =>
                  lazymatch x with
                  | context [Z.eqb _ _] => fail
                  | _ => destruct (Z.eqb_spec x y)
                  end
              end; cbn iota); try lia; done.
Qed.

Lemma filter_word_limit pre rest :
  List.filter word (pre ++ "--limit" :: rest) = List.filter word (pre ++ rest).
Proof. by rewrite !List.filter_app. Qed.

Lemma filter_same {A} (f g : A → bool) (l : list A) :
  (∀ a, a ∈ l → f a = g a) → List.filter f l = List.filter g l.
Proof.
  intros H. apply List.filter_ext_in. intros a Ha. apply H.
  by apply list_elem_of_In.
Qed.

Lemma filter_word_elem a l : a ∈ List.filter word l → word a = true.
Proof. intros H. apply list_elem_of_In, List.filter_In in H. tauto. Qed.

(** White space between two strings separates their pieces. *)
Lemma split_go_leading t :
  List.filter Js.truthy (Js.split_go true EmptyString t) =
  List.filter Js.truthy (Js.split_go false EmptyString t).
Proof. destruct t as [|c t]; simpl; [done |]. by destruct (Js.is_space c). Qed.

Lemma split_go_spaced s t b piece :
  (b = true → piece = EmptyString) →
  List.filter Js.truthy (Js.split_go b piece (s +:+ String " " t)) =
  List.filter Js.truthy (Js.split_go b piece s) ++
  List.filter Js.truthy (Js.split_go false EmptyString t).
Proof.
  revert b piece. induction s as [|c s IH]; intros b piece Hb.
  - change (EmptyString +:+ String " " t) with (String " " t).
    cbn [Js.split_go]. change (Js.is_space " ") with true. cbn iota.
    destruct b.
    + rewrite (Hb eq_refl). simpl. apply split_go_leading.
    + cbn [List.filter]. rewrite split_go_leading.
      by destruct (Js.truthy piece).
  - rewrite append_cons. cbn [Js.split_go].
    destruct (Js.is_space c).
    + destruct b.
      * by apply IH.
      * cbn [List.filter]. rewrite (IH true EmptyString) by done.
        by destruct (Js.truthy piece).
    + by apply IH.
Qed.

Lemma toLowerCase_app a b :
  Js.toLowerCase (a +:+ b) = Js.toLowerCase a +:+ Js.toLowerCase b.
Proof.
  induction a as [|c a IH]; [done |].
  rewrite append_cons. simpl. by rewrite IH, append_cons.
Qed.

Lemma tokenize_spaced a b : tokenize (a +:+ " " +:+ b) = tokenize a ++ tokenize b.
Proof.
  unfold tokenize, Js.split_ws. rewrite toLowerCase_app.
  change (" " +:+ b) with (String " " b).
  change (Js.toLowerCase (String " " b)) with (String " " (Js.toLowerCase b)).
  by apply split_go_spaced.
Qed.

Lemma bind_inv {A B} (m : M A) (k : A → M B) w w' (b : B) :
  (m ≫= k) w = (w', Ok b) → ∃ w1 a, m w = (w1, Ok a) ∧ k a w1 = (w', Ok b).
Proof.
  unfold mbind, M_bind. destruct (m w) as [w1 [a | e]]; intros H; [| done].
  by exists w1, a.
Qed.

(** The results of a search are those of [searchSkills] on some index. *)
Lemma search_results cmp D remotes query options w w' res :
  search cmp D remotes query options w = (w', Ok res) →
  ∃ index, searchSkills index query (Options.limit options) = Ok (SearchResult.results res).
Proof.
  unfold search. intros H.
  apply bind_inv in H as (w1 & startTime & _ & H).
  apply bind_inv in H as (w2 & stale & _ & H).
  apply bind_inv in H as (w3 & index & _ & H).
  apply bind_inv in H as (w4 & results & Hres & H).
  apply bind_inv in H as (w5 & now & _ & H).
  apply bind_inv in H as (w6 & fromCache & _ & H).
  exists index. unfold lift in Hres. injection Hres as _ ->.
  unfold mret, M_ret in H. by injection H as _ <-.
Qed.

Lemma searchSkills_limit_zero index query results :
  searchSkills index query (Some 0) = Ok results → results = [].
Proof.
  unfold searchSkills. destruct (Nat.eqb _ 0); [by intros [= <-] |].
  destruct index; [| done]. intros [= <-]. cbn [default].
  unfold Js.slice0. change (0 <? 0) with false. cbn iota.
  by replace (Z.to_nat (Z.min 0 _)) with 0%nat by lia.
Qed.


End CliFacts.

(** X20. [main] joins the arguments that are no flags with a space and
    [searchSkills] splits the query at white space again: the terms searched
    are the lower-case pieces of the arguments, argument by argument, in the
    order of the command line. *)
Theorem joined_words_tokenize (words : list string) :
  tokenize (Cli.join " " words) = flat_map tokenize words.
Proof.
  induction words as [|a words IH]; [done |].
  destruct words as [|b words].
  - simpl. by rewrite app_nil_r.
  - change (Cli.join " " (a :: b :: words))
      with (a +:+ " " +:+ Cli.join " " (b :: words)).
    rewrite tokenize_spaced, IH. done.
Qed.

(** X21. The value of [--limit] is taken out of the query by its first
    position among the arguments.  When the argument after the first
    [--limit] does not occur before it, every occurrence of that value is
    left out of the query, also the later ones; when it does occur before,
    none is left out, and the value is searched for as well. *)
Theorem query_limit_value (pre : list string) (v : string) (post : list string) :
  "--limit" ∉ pre →
  Cli.query (pre ++ "--limit" :: v :: post) =
  Cli.join " "
    (List.filter (fun a => negb (String.eqb a v) || bool_decide (v ∈ pre))
       (List.filter word (pre ++ v :: post))).
Proof.
  intros Hpre. unfold Cli.query, Cli.limitIdx.
  rewrite (indexOf_first pre "--limit" (v :: post) Hpre).
  fold word. rewrite filter_word_limit. f_equal.
  apply filter_same. intros a Ha. apply filter_word_elem in Ha.
  destruct (Z.eqb_spec (Z.of_nat (length pre)) (-1)); [lia |].
  cbn [orb]. by apply indexOf_around_limit.
Qed.

Lemma query_limit_value_witness :
  ("--limit" ∉ ["top"]) ∧
  Cli.query (["top"] ++ "--limit" :: "5" :: ["5"]) = "top" ∧
  ("--limit" ∉ ["5"]) ∧
  Cli.query (["5"] ++ "--limit" :: "5" :: []) = "5 5".
Proof.
  assert ("--limit" ∉ ["top"]) as H1 by (apply (bool_decide_unpack _); vm_compute; exact I).
  assert ("--limit" ∉ ["5"]) as H2 by (apply (bool_decide_unpack _); vm_compute; exact I).
  split; [exact H1 |]. split.
  - rewrite (query_limit_value ["top"] "5" ["5"] H1). reflexivity.
  - split; [exact H2 |].
    rewrite (query_limit_value ["5"] "5" [] H2). reflexivity.
Defined.

(** X22. When [--limit] is not followed by a number ([--limit] is the last
    argument, or the next one does not start with digits), the limit is
    [NaN], and a search that succeeds shows no result at all, whatever the
    index holds. *)
Theorem limit_without_number (cmp : string → string → Z) (D : string)
    (remotes : list (string * option Remote.t)) (args : list string)
    (w w' : World.t) (shown : SearchResult.t) :
  Cli.limit args = Number.NaN →
  Cli.main cmp D remotes args w = (w', Cli.Exited 0 (Some shown)) →
  SearchResult.results shown = [].
Proof.
  intros Hlimit. unfold Cli.main.
  destruct (Cli.flag args "--help" || Cli.flag args "-h"); [intros [=] |].
  destruct (negb (Js.truthy (Cli.query args))); [intros [=] |].
  rewrite Hlimit. cbn [Number.toInteger].
  destruct (search _ _ _ _ _ w) as [w1 [res | e]] eqn:Hs; [| intros [=]].
  intros [= _ <-].
  apply search_results in Hs as [index Hs]. simpl in Hs.
  by apply searchSkills_limit_zero in Hs.
Qed.

Lemma limit_without_number_witness :
  let w := World.mk 1000 (Cache.Object three_docks) true None [] [] in
  let shown := SearchResult.mk [] 0 true in
  Cli.limit ["dock"; "--limit"] = Number.NaN ∧
  Cli.main localeCompare_root "registries" [] ["dock"; "--limit"] w
    = (w, Cli.Exited 0 (Some shown)) ∧
  SearchResult.results shown = [].
Proof.
  intros w shown.
  assert (Cli.limit ["dock"; "--limit"] = Number.NaN) as H1 by reflexivity.
  assert (Cli.main localeCompare_root "registries" [] ["dock"; "--limit"] w
          = (w, Cli.Exited 0 (Some shown))) as H2 by (vm_compute; reflexivity).
  split; [exact H1 |]. split; [exact H2 |].
  exact (limit_without_number localeCompare_root "registries" [] _ w w shown H1 H2).
Defined.



(** ** The catalog of [generate-catalog.js] *)

Section CatalogFacts.

Variable localeCompare : string → string → Z.

(** The records a file holds, as they stand in the file. *)
Definition raw_skills (f : string * Exc Registry.t) : list Skill.t :=
  match snd f with
  | Ok content => default [] (Registry.skills content)
  | Throw _ => []
  end.

(** One turn of the loop of [loadRegistries]. *)
Definition read_file (acc : Exc (list Skill.t)) (f : string * Exc Registry.t) :
    Exc (list Skill.t) :=
  match acc with
  | Throw e => Throw e
  | Ok skills =>
      match snd f with
      | Throw e => Throw e
      | Ok registry =>
          match Registry.skills registry with
          | Some more => Ok (skills ++ more)
          | None => Ok skills
          end
      end
  end.

Lemma read_files_thrown files e : fold_left read_file files (Throw e) = Throw e.
Proof. induction files as [|f files IH]; [done | apply IH]. Qed.

Lemma read_files_ok files acc skills :
  fold_left read_file files (Ok acc) = Ok skills →
  skills = acc ++ flat_map raw_skills files ∧
  ∀ f, f ∈ files → ∃ content, snd f = Ok content.
Proof.
  revert acc. induction files as [|f files IH]; intros acc; cbn [fold_left].
  - intros [= <-]. split; [by rewrite app_nil_r |].
    intros f Hf. by apply elem_of_nil in Hf.
  - unfold read_file at 2. unfold raw_skills at 1. cbn [flat_map].
    destruct (snd f) as [content | e] eqn:Hf.
    + assert (∃ acc', (match Registry.skills content with
                       | Some more => Ok (acc ++ more)
                       | None => Ok acc
                       end) = Ok acc' ∧
                      acc' = acc ++ raw_skills f) as (acc' & -> & Hacc).
      { unfold raw_skills. rewrite Hf.
        destruct (Registry.skills content) as [more|]; eexists;
          (split; [reflexivity | simpl; by rewrite ?app_nil_r]). }
      intros H. apply IH in H as [-> Hall]. split.
      * rewrite Hacc, <- app_assoc. unfold raw_skills. by rewrite Hf.
      * intros g Hg. apply elem_of_cons in Hg as [-> | Hg]; [by eexists | by apply Hall].
    + by rewrite read_files_thrown.
Qed.

Lemma read_files_bad files acc f e :
  f ∈ files → snd f = Throw e → ∃ e', fold_left read_file files acc = Throw e'.
Proof.
  revert acc. induction files as [|g files IH]; intros acc Hin Hf.
  - by apply elem_of_nil in Hin.
  - cbn [fold_left]. apply elem_of_cons in Hin as [<- | Hin].
    + unfold read_file at 2. rewrite Hf.
      destruct acc as [skills | e0]; rewrite read_files_thrown; by eexists.
    + by apply IH.
Qed.

Lemma loadRegistries_fold entries :
  Catalog.loadRegistries localeCompare (Some entries) =
  match fold_left read_file
          (List.filter (fun f => Js.endsWith (fst f) ".json") entries) (Ok []) with
  | Throw e => Throw e
  | Ok skills =>
      Ok (Js.sort (fun a b => localeCompare (Skill.name a) (Skill.name b)) skills)
  end.
Proof. reflexivity. Qed.

(** A record of the index and the record of the file it was made from. *)
Definition stamped_from (row record : Skill.t) : Prop :=
  ∃ reg, record = Skill.stamp reg row.

Lemma stamped_from_name row record :
  stamped_from row record → Skill.name record = Skill.name row.
Proof. by intros [reg ->]. Qed.

Definition by_name (a b : Skill.t) : Z := localeCompare (Skill.name a) (Skill.name b).

Lemma insert_sorted_stamped x y l l' :
  stamped_from x y → Forall2 stamped_from l l' →
  Forall2 stamped_from (Js.insert_sorted by_name x l) (Js.insert_sorted by_name y l').
Proof.
  intros Hxy H. induction H as [|a b l l' Hab H IH]; simpl.
  - by repeat constructor.
  - unfold by_name at 1 3.
    rewrite (stamped_from_name _ _ Hxy), (stamped_from_name _ _ Hab).
    destruct (localeCompare (Skill.name x) (Skill.name a) <=? 0);
      by repeat constructor.
Qed.

Lemma sort_stamped l l' :
  Forall2 stamped_from l l' →
  Forall2 stamped_from (Js.sort by_name l) (Js.sort by_name l').
Proof.
  induction 1 as [|a b l l' Hab H IH]; simpl; [constructor |].
  by apply insert_sorted_stamped.
Qed.

Lemma file_skills_stamped f : Forall2 stamped_from (raw_skills f) (file_skills f).
Proof.
  unfold raw_skills, file_skills. destruct (snd f) as [content | e]; [| constructor].
  induction (default [] (Registry.skills content)) as [|s l IH]; simpl;
    constructor; [by eexists | done].
Qed.

Lemma files_stamped entries :
  (∀ f, f ∈ entries → fst f = "schema.json" → raw_skills f = []) →
  Forall2 stamped_from
    (flat_map raw_skills (List.filter (fun f => Js.endsWith (fst f) ".json") entries))
    (flat_map file_skills (List.filter (fun f => is_registry_file (fst f)) entries)).
Proof.
  induction entries as [|f entries IH]; intros Hschema; [constructor |].
  assert (Forall2 stamped_from
            (flat_map raw_skills
               (List.filter (fun f => Js.endsWith (fst f) ".json") entries))
            (flat_map file_skills
               (List.filter (fun f => is_registry_file (fst f)) entries))) as Hrest.
  { apply IH. intros g Hg. apply Hschema. by apply list_elem_of_further. }
  cbn [List.filter]. unfold is_registry_file at 1.
  destruct (Js.endsWith (fst f) ".json"); [| done].
  destruct (String.eqb_spec (fst f) "schema.json") as [E | _]; cbn [andb negb flat_map].
  - rewrite (Hschema f (list_elem_of_here _ _) E). exact Hrest.
  - apply Forall2_app; [apply file_skills_stamped | exact Hrest].
Qed.

End CatalogFacts.

(** X24. A source written [github:owner/repo] becomes the address of the
    repository on GitHub: the prefix is the one occurrence that is replaced,
    also when the rest holds "github:" again. *)
Theorem parseSource_github (repo : string) :
  Catalog.parseSource ("github:" +:+ repo) = "https://github.com/" +:+ repo.
Proof.
  unfold Catalog.parseSource.
  assert (Js.startsWith ("github:" +:+ repo) "github:" = true) as ->
    by (apply startsWith_spec; by exists repo).
  by rewrite replace_at_start.
Qed.

(** X25. When the catalog can be generated, it lists the skills of the
    index, in the same order: row by row, the record of the index is the
    record of the catalog with its registry attached.  The file
    [schema.json], which the catalog reads and the index does not, must hold
    no skills; no remote registry is configured. *)
Theorem catalog_matches_index (localeCompare : string → string → Z)
    (REGISTRIES_DIR : string) (entries : list (string * Exc Registry.t))
    (now updated : Z) (rows : list Skill.t) :
  Catalog.loadRegistries localeCompare (Some entries) = Ok rows →
  (∀ content, ("schema.json", Ok content) ∈ entries →
              default [] (Registry.skills content) = []) →
  Forall2 (fun row record => ∃ reg, record = Skill.stamp reg row) rows
    (Index.skills
       (makeIndex localeCompare
          (loadLocalRegistries REGISTRIES_DIR (Some entries) now) [] updated)).
Proof.
  intros Hload Hschema. rewrite loadRegistries_fold in Hload.
  destruct (fold_left read_file _ (Ok [])) as [skills | e] eqn:Hfold; [| done].
  injection Hload as <-. apply read_files_ok in Hfold as [-> _].
  unfold makeIndex, mergeRemotes. cbn [fold_left Index.skills app].
  rewrite loadLocalRegistries_skills.
  apply (sort_stamped localeCompare), files_stamped.
  intros [file content] Hf E. simpl in E. subst file.
  unfold raw_skills. simpl. destruct content as [content | e]; [| done].
  by apply Hschema.
Qed.

Lemma catalog_matches_index_witness :
  let entries :=
    [("core.json", Ok (Registry.mk (Some [named "b"; named "a"])));
     ("schema.json", Ok (Registry.mk None))] in
  Catalog.loadRegistries localeCompare_root (Some entries) = Ok [named "a"; named "b"] ∧
  Forall2 (fun row record => ∃ reg, record = Skill.stamp reg row) [named "a"; named "b"]
    (Index.skills
       (makeIndex localeCompare_root
          (loadLocalRegistries "registries" (Some entries) 5) [] 7)).
Proof.
  intros entries.
  assert (Catalog.loadRegistries localeCompare_root (Some entries)
          = Ok [named "a"; named "b"]) as Hload by (vm_compute; reflexivity).
  split; [exact Hload |].
  apply (catalog_matches_index localeCompare_root "registries" entries 5 7 _ Hload).
  intros content H.
  apply elem_of_cons in H as [H | H]; [discriminate H |].
  apply elem_of_cons in H as [H | H]; [by injection H as -> |].
  by apply elem_of_nil in H.
Defined.

(** X26. One file of the directory whose name ends in ".json" and that cannot
    be read or parsed makes the catalog fail as a whole, where the index
    only skips the file. *)
Theorem catalog_stops_at_bad_file (localeCompare : string → string → Z)
    (entries : list (string * Exc Registry.t)) (file : string) (e : Error) :
  (file, Throw e) ∈ entries → Js.endsWith file ".json" = true →
  ∃ e', Catalog.loadRegistries localeCompare (Some entries) = Throw e'.
Proof.
  intros Hin Hjson. rewrite loadRegistries_fold.
  destruct (read_files_bad
              (List.filter (fun f => Js.endsWith (fst f) ".json") entries)
              (Ok []) (file, Throw e) e) as [e' ->]; [| done | by exists e'].
  apply list_elem_of_In, List.filter_In. split; [by apply list_elem_of_In | done].
Qed.

Lemma catalog_stops_at_bad_file_witness :
  let entries :=
    [("core.json", Ok (Registry.mk (Some [named "a"])));
     ("broken.json", Throw SyntaxError)] in
  ∃ e', Catalog.loadRegistries localeCompare_root (Some entries) = Throw e'.
Proof.
  intros entries.
  apply (catalog_stops_at_bad_file localeCompare_root entries "broken.json" SyntaxError).
  - apply list_elem_of_further, list_elem_of_here.
  - reflexivity.
Defined.
